(** * The network bridge of SOS: DMA buffer pool, send and poll

    A shallow embedding of [sos/src/network.c].  The file has two halves:
    the polled bridge that is compiled today (module [Live]) and the
    buffer-pool bridge kept for the interrupt-driven design (lines 161-340),
    which is the part that owns the free list, the receive queue and the
    transmit counter.  Most properties below are about that second half. *)

From Stdlib Require Import ZArith Lia.
From stdpp Require Import base tactics option list numbers list_numbers strings.

Local Open Scope Z_scope.

(** ** Machine integers *)

(** A C [int] is 32 bits wide on the target; [int_wrap] is the value an
    arithmetic result or a narrowing conversion has once it is stored in an
    [int]. *)
Definition INT_MIN : Z := - 2 ^ 31.
Definition INT_MAX : Z := 2 ^ 31 - 1.
Definition int_wrap (x : Z) : Z := (x + 2 ^ 31) mod 2 ^ 32 - 2 ^ 31.

(** [(size_t) len] for an [int len]: the length [memcpy] and the cache
    maintenance calls receive. *)
Definition size_t_of_int (x : Z) : Z := x mod 2 ^ 64.

(** ** Compile-time configuration *)

(** The four [#define]s of the buffer pool.  The source fixes them
    ([source_config]); the functions are stated over any configuration so
    that the small scenarios (a pool of four, two transmit slots) are
    instances of the same definitions. *)
Record config : Type := {
  N_DMA_BUFS : Z;
  N_RX_BUFS : Z;
  N_TX_BUFS : Z;
  BUF_SIZE : Z
}.

Definition source_config : config :=
  {| N_DMA_BUFS := 512; N_RX_BUFS := 256; N_TX_BUFS := 128; BUF_SIZE := 2048 |}.

(** ** Data *)

(** [dma_addr_t]: a DMA region by its physical and virtual address. *)
Record dma_addr_t : Type := { paddr : Z; vaddr : Z }.

(** [rx_t]: a received frame waiting for the stack. *)
Record rx_t : Type := { buf_no : Z; length_ : Z }.

(** Modelled from the spec: [ringbuffer.h] (the macros [ringBuffer_typedef],
    [bufferInit], [isBufferEmpty], [isBufferFull], [bufferWrite] and
    [bufferRead]) is not among the sources.  The spec describes both rings as
    bounded FIFOs: a fixed capacity, enqueue at the tail, dequeue at the
    head, "enqueue on a full queue is rejected" and "dequeue on empty queue
    yields nothing". *)
Record ringBuffer (A : Type) : Type := {
  rb_capacity : Z;
  rb_elems : list A
}.
Arguments rb_capacity {A} _.
Arguments rb_elems {A} _.

Definition long_buf_t : Type := ringBuffer Z.
Definition rx_buf_t : Type := ringBuffer rx_t.

(** Modelled from the spec: [bufferInit] of [ringbuffer.h], an empty FIFO
    of the requested capacity. *)
Definition bufferInit {A} (size : Z) : ringBuffer A :=
  {| rb_capacity := size; rb_elems := [] |}.

(** Modelled from the spec: [isBufferEmpty] of [ringbuffer.h]. *)
Definition isBufferEmpty {A} (b : ringBuffer A) : bool :=
  match rb_elems b with [] => true | _ :: _ => false end.

(** Modelled from the spec: [isBufferFull] of [ringbuffer.h], the FIFO
    holds as many elements as its capacity. *)
Definition isBufferFull {A} (b : ringBuffer A) : bool :=
  rb_capacity b <=? Z.of_nat (length (rb_elems b)).

(** Modelled from the spec: [bufferWrite] of [ringbuffer.h], enqueue at the
    tail; on a full FIFO the enqueue is rejected. *)
Definition bufferWrite {A} (b : ringBuffer A) (x : A) : ringBuffer A :=
  if isBufferFull b then b
  else {| rb_capacity := rb_capacity b; rb_elems := rb_elems b ++ [x] |}.

(** Modelled from the spec: [bufferRead] of [ringbuffer.h], dequeue at the
    head; an empty FIFO yields nothing. *)
Definition bufferRead {A} (b : ringBuffer A) : option (A * ringBuffer A) :=
  match rb_elems b with
  | [] => None
  | x :: l => Some (x, {| rb_capacity := rb_capacity b; rb_elems := l |})
  end.

(** The file-scope [buffers] structure. *)
Record buffers_t : Type := {
  dma_bufs : list dma_addr_t;
  free_pool : long_buf_t;
  rx_queue : rx_buf_t;
  n_tx_bufs : Z
}.

(** What the code does to its surroundings: log lines, cache maintenance,
    the copy into a DMA buffer and the hand-over of a frame to the stack.
    Each constructor is one call the source makes, with its arguments. *)
Inductive log_level : Type := LOGE | LOGW | LOGF.

Inductive event : Type :=
| ZF_LOG (lvl : log_level) (msg : string)
| sos_dma_cache_invalidate (va len : Z)
| sos_dma_cache_clean (va len : Z)
| memcpy (dst src len : Z)
| pico_stack_recv (va len : Z).

Record world : Type := {
  buffers : buffers_t;
  trace : list event
}.

(** ** Outcomes *)

(** How a call ends other than by returning: a failed [assert], an access
    outside an array, a fatal log ([ZF_LOGF]) or the use of a variable that
    was never written.  The world is the one at the point of failure. *)
Inductive fault : Type := AssertFailed | OutOfBounds | Fatal | Uninitialised.

Inductive outcome (A : Type) : Type :=
| Ok (a : A) (w : world)
| Fault (f : fault) (w : world).
Arguments Ok {A} a w.
Arguments Fault {A} f w.

Definition M (A : Type) : Type := world → outcome A.

Definition ret {A} (a : A) : M A := λ w, Ok a w.
Definition bind {A B} (m : M A) (k : A → M B) : M B :=
  λ w, match m w with
       | Ok a w' => k a w'
       | Fault f w' => Fault f w'
       end.

Notation "'do' x <- m ; k" := (bind m (λ x, k))
  (at level 10, x name, m at level 100, k at level 200).
Notation "m ;; k" := (bind m (λ _, k))
  (at level 100, k at level 200, right associativity).

Definition get_buffers : M buffers_t := λ w, Ok (buffers w) w.
Definition raise {A} (f : fault) : M A := λ w, Fault f w.
Definition assert (b : bool) : M unit :=
  if b then ret tt else raise AssertFailed.
Definition emit (e : event) : M unit :=
  λ w, Ok tt {| buffers := buffers w; trace := trace w ++ [e] |}.
Definition modify (f : buffers_t → buffers_t) : M unit :=
  λ w, Ok tt {| buffers := f (buffers w); trace := trace w |}.

Definition set_free_pool (p : long_buf_t) (b : buffers_t) : buffers_t :=
  {| dma_bufs := dma_bufs b; free_pool := p;
     rx_queue := rx_queue b; n_tx_bufs := n_tx_bufs b |}.
Definition set_rx_queue (q : rx_buf_t) (b : buffers_t) : buffers_t :=
  {| dma_bufs := dma_bufs b; free_pool := free_pool b;
     rx_queue := q; n_tx_bufs := n_tx_bufs b |}.
Definition set_n_tx_bufs (n : Z) (b : buffers_t) : buffers_t :=
  {| dma_bufs := dma_bufs b; free_pool := free_pool b;
     rx_queue := rx_queue b; n_tx_bufs := n |}.
Definition set_dma_buf (i : Z) (a : dma_addr_t) (b : buffers_t) : buffers_t :=
  {| dma_bufs := <[Z.to_nat i := a]> (dma_bufs b); free_pool := free_pool b;
     rx_queue := rx_queue b; n_tx_bufs := n_tx_bufs b |}.

(** Reading [arr[i]]: outside the array the access is out of bounds. *)
Definition array_read {A} (arr : list A) (i : Z) : M A :=
  if i <? 0 then raise OutOfBounds
  else match arr !! Z.to_nat i with
       | Some x => ret x
       | None => raise OutOfBounds
       end.

(** [buffers.dma_bufs[buf_no]]. *)
Definition dma_buf_at (buf_no : Z) : M dma_addr_t :=
  do b <- get_buffers; array_read (dma_bufs b) buf_no.

(** What the platform outside this file answers during initialisation
    ([dma.h] and the C library are not among the sources): whether a
    [calloc] of the given number of elements succeeds, the region the
    [i]-th call of [sos_dma_malloc] returns, and whether
    [sos_dma_cache_clean_invalidate] on a region reports [seL4_NoError]. *)
Record platform : Type := {
  calloc_ok : Z → bool;
  sos_dma_malloc : Z → dma_addr_t;
  sos_dma_cache_clean_invalidate : Z → Z → bool
}.

(** ** The buffer-pool bridge (lines 161-340) *)

Section Bridge.

Variable cfg : config.
Variable env : platform.

(** [alloc_dma_buf]: remove a buffer from the pool of DMA buffers.  The
    index read from the ring is stored in an [int] before it is returned
    as a [long]. *)
Definition alloc_dma_buf : M Z :=
  do b <- get_buffers;
  let pool := free_pool b in
  if isBufferEmpty pool then
    emit (ZF_LOG LOGE "Out of preallocated eth buffers.");;
    ret (-1)
  else
    match bufferRead pool with
    | Some (allocated_buf_no, pool') =>
        modify (set_free_pool pool');;
        ret (int_wrap allocated_buf_no)
    | None => raise Uninitialised
    end.

(** [free_dma_buf]: the two assertions, then the write to the ring. *)
Definition free_dma_buf (buf_no : Z) : M unit :=
  assert (buf_no <? N_DMA_BUFS cfg);;
  do b <- get_buffers;
  let pool := free_pool b in
  assert (negb (isBufferFull pool));;
  modify (set_free_pool (bufferWrite pool buf_no)).

(** The loop of [init_buffers], [n] iterations starting at index [i]. *)
Fixpoint init_buffers_loop (n : nat) (i : Z) : M unit :=
  match n with
  | O => ret tt
  | S n' =>
      let a := sos_dma_malloc env i in
      modify (set_dma_buf i a);;
      (if vaddr a =? 0 then
         emit (ZF_LOG LOGF "Failed to dma malloc buffer %d");; raise Fatal
       else ret tt);;
      (if sos_dma_cache_clean_invalidate env (vaddr a) (BUF_SIZE cfg) then ret tt
       else emit (ZF_LOG LOGF "Failed to clean invalidate buffer %d");;
            raise Fatal);;
      do b <- get_buffers;
      modify (set_free_pool (bufferWrite (free_pool b) i));;
      init_buffers_loop n' (i + 1)
  end.

(** [memset(&buffers, 0, sizeof(buffers))]. *)
Definition zeroed_buffers : buffers_t :=
  {| dma_bufs := replicate (Z.to_nat (N_DMA_BUFS cfg)) {| paddr := 0; vaddr := 0 |};
     free_pool := {| rb_capacity := 0; rb_elems := [] |};
     rx_queue := {| rb_capacity := 0; rb_elems := [] |};
     n_tx_bufs := 0 |}.

(** [init_buffers]. *)
Definition init_buffers : M unit :=
  modify (λ _, zeroed_buffers);;
  modify (set_free_pool (bufferInit (N_DMA_BUFS cfg)));;
  (if calloc_ok env (N_DMA_BUFS cfg) then ret tt
   else emit (ZF_LOG LOGF "Failed to calloc dma free pool");; raise Fatal);;
  modify (set_rx_queue (bufferInit (N_RX_BUFS cfg)));;
  (if calloc_ok env (N_RX_BUFS cfg) then ret tt
   else emit (ZF_LOG LOGF "Failed to calloc rx queue");; raise Fatal);;
  init_buffers_loop (Z.to_nat (N_DMA_BUFS cfg)) 0.

(** [pico_allocate_rx_buf]: the physical address handed to the device, or
    0; on success the buffer index is stored through [cookie]. *)
Definition pico_allocate_rx_buf (buf_size : Z) : M (Z * option Z) :=
  if buf_size >? BUF_SIZE cfg then
    emit (ZF_LOG LOGE "Requested buf size %zu too large, max %zu");;
    ret (0, None)
  else
    do buf_no <- alloc_dma_buf;
    if buf_no =? -1 then ret (0, None)
    else
      do a <- dma_buf_at buf_no;
      emit (sos_dma_cache_invalidate (vaddr a) (BUF_SIZE cfg));;
      ret (paddr a, Some buf_no).

(** The loop of the split-frame branch of [pico_rx_complete]: [n]
    iterations starting at index [i]. *)
Fixpoint release_cookies (n : nat) (i : Z) (cookies : list Z) : M unit :=
  match n with
  | O => ret tt
  | S n' =>
      do c <- array_read cookies i;
      free_dma_buf c;;
      release_cookies n' (i + 1) cookies
  end.

(** [pico_rx_complete]: [cookies] and [lens] are the two arrays the driver
    passes, [num_bufs] the count it reports. *)
Definition pico_rx_complete (num_bufs : nat) (cookies lens : list Z) : M unit :=
  if (1 <? num_bufs)%nat then
    emit (ZF_LOG LOGW "Frame splitting not handled");;
    release_cookies num_bufs 0 cookies
  else
    do b <- get_buffers;
    assert (negb (isBufferFull (rx_queue b)));;
    do c <- array_read cookies 0;
    do l <- array_read lens 0;
    let rx := {| buf_no := c; length_ := l |} in
    modify (set_rx_queue (bufferWrite (rx_queue b) rx)).

(** [pico_tx_complete]. *)
Definition pico_tx_complete (cookie : Z) : M unit :=
  free_dma_buf cookie;;
  do b <- get_buffers;
  modify (set_n_tx_bufs (int_wrap (n_tx_bufs b - 1))).

(** [pico_eth_send] of the buffer-pool bridge; [input_buf] is the address
    of the caller's bytes. *)
Definition pico_eth_send (input_buf len : Z) : M Z :=
  if len >? BUF_SIZE cfg then
    emit (ZF_LOG LOGE "Buffer size %d too big, max %d");;
    ret 0
  else
    do b <- get_buffers;
    if n_tx_bufs b =? N_TX_BUFS cfg then ret 0
    else
      do buf_no <- alloc_dma_buf;
      do b <- get_buffers;
      modify (set_n_tx_bufs (int_wrap (n_tx_bufs b + 1)));;
      do buf <- dma_buf_at buf_no;
      emit (memcpy (vaddr buf) input_buf (size_t_of_int len));;
      emit (sos_dma_cache_clean (vaddr buf) (size_t_of_int len));;
      ret len.

(** The loop of [pico_eth_poll], entered with [loop_score = n] (the loop
    runs only while [loop_score > 0], and every iteration that does not
    break decrements it). *)
Fixpoint poll_loop (n : nat) : M Z :=
  match n with
  | O => ret 0
  | S n' =>
      do b <- get_buffers;
      if isBufferEmpty (rx_queue b) then ret (Z.of_nat (S n'))
      else
        match bufferRead (rx_queue b) with
        | Some (rx, q') =>
            modify (set_rx_queue q');;
            do buf <- dma_buf_at (buf_no rx);
            emit (sos_dma_cache_invalidate (vaddr buf) (size_t_of_int (length_ rx)));;
            emit (pico_stack_recv (vaddr buf) (length_ rx));;
            free_dma_buf (buf_no rx);;
            poll_loop n'
        | None => raise Uninitialised
        end
  end.

(** [pico_eth_poll] of the buffer-pool bridge. *)
Definition pico_eth_poll (loop_score : Z) : M Z :=
  if loop_score >? 0 then poll_loop (Z.to_nat loop_score)
  else ret loop_score.

End Bridge.

(** ** The polled bridge that is compiled today (lines 61-86) *)

Module Live.

(** [ethif_err_t] of the driver. *)
Inductive ethif_err : Type := ETHIF_NOERROR | ETHIF_ERROR.

Section Driver.

(** The ethernet driver is outside this file: its state is any type, and
    [ethif_send] and [ethif_recv] are whatever it implements.  A call of
    [ethif_recv] answers with its return value, the length it stored, and
    the frames it passed to [raw_recv_callback] meanwhile (address and
    length). *)
Variable driver : Type.
Variable ethif_send : Z → Z → driver → ethif_err * driver.
Variable ethif_recv : driver → ethif_err * Z * list (Z * Z) * driver.

(** [raw_recv_callback]: hands the frame to the stack. *)
Definition raw_recv_callback (in_packet len : Z) : event :=
  pico_stack_recv in_packet len.

(** [pico_eth_send] of the polled bridge. *)
Definition pico_eth_send (input_buf len : Z) (d : driver) : Z * driver :=
  match ethif_send input_buf len d with
  | (ETHIF_NOERROR, d') => (len, d')
  | (ETHIF_ERROR, d') => (0, d')
  end.

(** The loop of [pico_eth_poll], entered with [loop_score = n]; the
    result carries the calls of the stack made on the way. *)
Fixpoint poll_loop (n : nat) (d : driver) : Z * list event * driver :=
  match n with
  | O => (0, [], d)
  | S n' =>
      match ethif_recv d with
      | (retval, len, frames, d') =>
          let evs := (λ f, raw_recv_callback f.1 f.2) <$> frames in
          match retval with
          | ETHIF_ERROR => (Z.of_nat (S n'), evs, d')
          | ETHIF_NOERROR =>
              if len =? 0 then (Z.of_nat (S n'), evs, d')
              else
                match poll_loop n' d' with
                | (r, evs', d'') => (r, evs ++ evs', d'')
                end
          end
      end
  end.

(** [pico_eth_poll] of the polled bridge. *)
Definition pico_eth_poll (loop_score : Z) (d : driver) : Z * list event * driver :=
  if loop_score >? 0 then poll_loop (Z.to_nat loop_score) d
  else (loop_score, [], d).

End Driver.

(** Modelled from the spec: the receive primitive of the driver,
    [driverReceive() -> (frameAvailable, length)].  The driver holds the
    frames that have arrived, oldest first, each by address and length; a
    call passes the oldest one to [raw_recv_callback] and answers its
    length, or answers length 0 when none is waiting. *)
Definition pending : Type := list (Z * Z).

Definition queue_recv (d : pending) : ethif_err * Z * list (Z * Z) * pending :=
  match d with
  | [] => (ETHIF_NOERROR, 0, [], [])
  | f :: d' => (ETHIF_NOERROR, f.2, [f], d')
  end.

End Live.

(** ** Views of the state *)

(** The indices on the free list, head first. *)
Definition pool_elems (w : world) : list Z := rb_elems (free_pool (buffers w)).

(** The frames waiting in the receive queue, and their buffer indices. *)
Definition rx_elems (w : world) : list rx_t := rb_elems (rx_queue (buffers w)).
Definition queued (w : world) : list Z := buf_no <$> rx_elems w.

(** The buffers that are out of the pool: the indices of [dma_bufs] that
    are not on the free list. *)
Definition allocated (cfg : config) (w : world) : list Z :=
  filter (λ i, i ∉ pool_elems w) (seqZ 0 (N_DMA_BUFS cfg)).

(** The two counts of the conservation law. *)
Definition allocated_count (cfg : config) (w : world) : Z :=
  Z.of_nat (length (allocated cfg w)).
Definition free_count (w : world) : Z := Z.of_nat (length (pool_elems w)).

(** The frames handed to the stack so far. *)
Definition is_delivery (e : event) : bool :=
  match e with pico_stack_recv _ _ => true | _ => false end.
Definition deliveries (w : world) : list event := filter is_delivery (trace w).

(** The copies into DMA buffers made so far. *)
Definition is_copy (e : event) : bool :=
  match e with memcpy _ _ _ => true | _ => false end.
Definition copies (w : world) : list event := filter is_copy (trace w).

(** State updates used to state results. *)
Definition with_pool (l : list Z) (w : world) : world :=
  {| buffers := set_free_pool
       {| rb_capacity := rb_capacity (free_pool (buffers w)); rb_elems := l |}
       (buffers w);
     trace := trace w |}.
Definition with_queue (q : list rx_t) (w : world) : world :=
  {| buffers := set_rx_queue
       {| rb_capacity := rb_capacity (rx_queue (buffers w)); rb_elems := q |}
       (buffers w);
     trace := trace w |}.
Definition with_n_tx (n : Z) (w : world) : world :=
  {| buffers := set_n_tx_bufs n (buffers w); trace := trace w |}.
Definition logged (es : list event) (w : world) : world :=
  {| buffers := buffers w; trace := trace w ++ es |}.

(** What one iteration of the poll loop tells the outside about a frame. *)
Definition dispatch_events (bufs : list dma_addr_t) (rx : rx_t) : list event :=
  match bufs !! Z.to_nat (buf_no rx) with
  | Some a => [sos_dma_cache_invalidate (vaddr a) (size_t_of_int (length_ rx));
               pico_stack_recv (vaddr a) (length_ rx)]
  | None => []
  end.

(** The world once the poll loop has dispatched the first [k] queued
    frames: they left the queue, the stack saw them in order, and their
    buffers went to the tail of the free list. *)
Definition polled (k : nat) (w : world) : world :=
  logged (flat_map (dispatch_events (dma_bufs (buffers w))) (take k (rx_elems w)))
    (with_queue (drop k (rx_elems w))
       (with_pool (pool_elems w ++ (buf_no <$> take k (rx_elems w))) w)).

(** ** Sequences of operations *)

(** The entry points of the buffer subsystem, as a caller (the stack, the
    driver, the main loop) may invoke them. *)
Inductive op : Type :=
| OpInit
| OpAllocate
| OpAllocateRx (buf_size : Z)
| OpRelease (buf_no : Z)
| OpSend (input_buf len : Z)
| OpTxComplete (cookie : Z)
| OpRxComplete (num_bufs : nat) (cookies lens : list Z)
| OpPoll (loop_score : Z).

Section Runs.

Variable cfg : config.
Variable env : platform.

Definition step (o : op) : M unit :=
  match o with
  | OpInit => init_buffers cfg env
  | OpAllocate => alloc_dma_buf;; ret tt
  | OpAllocateRx sz => pico_allocate_rx_buf cfg sz;; ret tt
  | OpRelease h => free_dma_buf cfg h
  | OpSend p len => pico_eth_send cfg p len;; ret tt
  | OpTxComplete c => pico_tx_complete cfg c
  | OpRxComplete n cookies lens => pico_rx_complete cfg n cookies lens
  | OpPoll n => pico_eth_poll cfg n;; ret tt
  end.

Fixpoint run (ops : list op) : M unit :=
  match ops with
  | [] => ret tt
  | o :: ops' => step o;; run ops'
  end.

(** [n] consecutive allocations, with the handles they return. *)
Fixpoint alloc_n (n : nat) : M (list Z) :=
  match n with
  | O => ret []
  | S n' => do h <- alloc_dma_buf; do hs <- alloc_n n'; ret (h :: hs)
  end.

(** *** Ownership outside the pool

    The code keeps no record of who holds a buffer that is neither on the
    free list nor in the receive queue.  [owners] is that record, kept
    beside the state: the buffers taken by [pico_eth_send] and not yet
    completed, and the buffers handed out by an allocation and not yet
    given back. *)
Record owners : Type := { tx_owned : list Z; rx_owned : list Z }.

Definition no_owners : owners := {| tx_owned := []; rx_owned := [] |}.

(** The usage contract of each operation, as a relation between the
    owners before and after it: what leaves the free list during an
    allocation or a send belongs to the caller or to the transmit path, and
    a handle may be given back only by its owner. *)
Definition moves (o : op) (w w' : world) (g g' : owners) : Prop :=
  match o with
  | OpInit => g' = no_owners
  | OpAllocate | OpAllocateRx _ =>
      ∃ taken, pool_elems w = taken ++ pool_elems w' ∧
               tx_owned g' = tx_owned g ∧ rx_owned g' = taken ++ rx_owned g
  | OpSend _ _ =>
      ∃ taken, pool_elems w = taken ++ pool_elems w' ∧
               tx_owned g' = taken ++ tx_owned g ∧ rx_owned g' = rx_owned g
  | OpRelease h =>
      tx_owned g' = tx_owned g ∧ rx_owned g ≡ₚ h :: rx_owned g'
  | OpTxComplete c =>
      tx_owned g ≡ₚ c :: tx_owned g' ∧ rx_owned g' = rx_owned g
  | OpRxComplete n cookies lens =>
      length cookies = n ∧ length lens = n ∧
      tx_owned g' = tx_owned g ∧ rx_owned g ≡ₚ cookies ++ rx_owned g'
  | OpPoll _ => g' = g
  end.

(** The states the subsystem reaches when it is initialised and then used
    within the contract. *)
Inductive reachable : world → owners → Prop :=
| reach_boot w0 w :
    init_buffers cfg env w0 = Ok tt w → reachable w no_owners
| reach_step w g o w' g' :
    reachable w g → step o w = Ok tt w' → moves o w w' g g' →
    reachable w' g'.

(** Every buffer has exactly one owner: the free list, the receive queue,
    the transmit path or a holder of an allocation. *)
Record inv (w : world) (g : owners) : Prop := {
  inv_owner :
    pool_elems w ++ queued w ++ tx_owned g ++ rx_owned g
      ≡ₚ seqZ 0 (N_DMA_BUFS cfg);
  inv_dma : length (dma_bufs (buffers w)) = Z.to_nat (N_DMA_BUFS cfg);
  inv_pool_cap : rb_capacity (free_pool (buffers w)) = N_DMA_BUFS cfg;
  inv_rx_cap : rb_capacity (rx_queue (buffers w)) = N_RX_BUFS cfg;
  inv_rx_len : Z.of_nat (length (rx_elems w)) ≤ N_RX_BUFS cfg;
  inv_tx : n_tx_bufs (buffers w) = Z.of_nat (length (tx_owned g));
  inv_tx_max : n_tx_bufs (buffers w) ≤ N_TX_BUFS cfg
}.

(** What [pico_eth_poll] relies on: every queued frame names a buffer of
    [dma_bufs], and the free list has room for all of them. *)
Definition poll_ready (w : world) : Prop :=
  Forall (λ rx, 0 ≤ buf_no rx < N_DMA_BUFS cfg ∧
                (Z.to_nat (buf_no rx) < length (dma_bufs (buffers w)))%nat)
         (rx_elems w) ∧
  Z.of_nat (length (pool_elems w)) + Z.of_nat (length (rx_elems w))
    ≤ rb_capacity (free_pool (buffers w)).

End Runs.

(** The constants have the sizes the code assumes of them. *)
Definition config_ok (cfg : config) : Prop :=
  0 ≤ N_DMA_BUFS cfg ≤ INT_MAX ∧ 0 ≤ N_RX_BUFS cfg ∧ 0 ≤ N_TX_BUFS cfg ≤ INT_MAX.

(** ** Scenarios *)

(** A platform on which initialisation succeeds: buffers laid out back to
    back. *)
Definition demo_platform : platform :=
  {| calloc_ok := λ _, true;
     sos_dma_malloc := λ i, {| paddr := 805306368 + 2048 * i;
                               vaddr := 1610612736 + 2048 * i |};
     sos_dma_cache_clean_invalidate := λ _ _, true |}.

(** The memory before [init_buffers] has run. *)
Definition boot : world :=
  {| buffers := {| dma_bufs := [];
                   free_pool := {| rb_capacity := 0; rb_elems := [] |};
                   rx_queue := {| rb_capacity := 0; rb_elems := [] |};
                   n_tx_bufs := 0 |};
     trace := [] |}.

(** A pool of four buffers, a receive queue of two frames and two transmit
    slots. *)
Definition small_config : config :=
  {| N_DMA_BUFS := 4; N_RX_BUFS := 2; N_TX_BUFS := 2; BUF_SIZE := 2048 |}.

(** A pool large enough to queue five frames. *)
Definition poll_config : config :=
  {| N_DMA_BUFS := 8; N_RX_BUFS := 8; N_TX_BUFS := 2; BUF_SIZE := 2048 |}.

(** Receive [n] single-buffer frames of 64 bytes, starting with handle [i]. *)
Definition receive_frames (i n : Z) : list op :=
  flat_map (λ c, [OpAllocateRx 64; OpRxComplete 1 [c] [64]]) (seqZ i n).

(** Two transmit slots: three sends of 100 bytes, the completion of the
    first, and a fourth send; the result is what the four sends returned. *)
Definition tx_scenario : M (list Z) :=
  init_buffers small_config demo_platform;;
  do r1 <- pico_eth_send small_config 0 100;
  do r2 <- pico_eth_send small_config 0 100;
  do r3 <- pico_eth_send small_config 0 100;
  pico_tx_complete small_config 0;;
  do r4 <- pico_eth_send small_config 0 100;
  ret [r1; r2; r3; r4].

(** Two drivers without a state: one whose [ethif_send] accepts every
    frame, one that refuses every frame. *)
Definition accepting_send (_ _ : Z) (d : unit) : Live.ethif_err * unit :=
  (Live.ETHIF_NOERROR, d).
Definition refusing_send (_ _ : Z) (d : unit) : Live.ethif_err * unit :=
  (Live.ETHIF_ERROR, d).

(** Five frames waiting in the driver, by address and length. *)
Definition five_pending : Live.pending :=
  [(4096, 60); (6144, 64); (8192, 1500); (10240, 42); (12288, 128)].

(** The world a sequence of operations leaves behind, started on the demo
    platform from [boot]. *)
Definition world_after (cfg : config) (ops : list op) : world :=
  match run cfg demo_platform ops boot with
  | Ok _ w => w
  | Fault _ w => w
  end.

(** A call stays inside its arrays if it does not end in an out-of-bounds
    access. *)
Definition in_bounds {A} (r : outcome A) : Prop :=
  match r with
  | Fault OutOfBounds _ => False
  | _ => True
  end.

(** ** Further views *)

(** The world a call leaves behind, whether it returns or not. *)
Definition final {A} (r : outcome A) : world :=
  match r with
  | Ok _ w => w
  | Fault _ w => w
  end.

(** The platform answers every request of [init_buffers] favourably: both
    [calloc]s succeed, every region has a virtual address other than 0 and
    every clean-invalidate reports [seL4_NoError]. *)
Definition region_ok (cfg : config) (env : platform) (i : Z) : Prop :=
  vaddr (sos_dma_malloc env i) ≠ 0 ∧
  sos_dma_cache_clean_invalidate env (vaddr (sos_dma_malloc env i)) (BUF_SIZE cfg)
    = true.

Definition platform_ok (cfg : config) (env : platform) : Prop :=
  calloc_ok env (N_DMA_BUFS cfg) = true ∧
  calloc_ok env (N_RX_BUFS cfg) = true ∧
  Forall (region_ok cfg env) (seqZ 0 (N_DMA_BUFS cfg)).

(** The buffers a completed [init_buffers] leaves. *)
Definition initialised (cfg : config) (env : platform) : buffers_t :=
  {| dma_bufs := sos_dma_malloc env <$> seqZ 0 (N_DMA_BUFS cfg);
     free_pool := {| rb_capacity := N_DMA_BUFS cfg;
                     rb_elems := seqZ 0 (N_DMA_BUFS cfg) |};
     rx_queue := {| rb_capacity := N_RX_BUFS cfg; rb_elems := [] |};
     n_tx_bufs := 0 |}.

(** [k] times: allocate a buffer and release it at once. *)
Fixpoint recycle (cfg : config) (k : nat) : M unit :=
  match k with
  | O => ret tt
  | S k' => do h <- alloc_dma_buf; free_dma_buf cfg h;; recycle cfg k'
  end.

(** What the poll loop tells the outside about a frame whose buffer is
    region [buf_no] of the platform: the cache is invalidated over the
    frame, then the stack receives it. *)
Definition frame_events (env : platform) (rx : rx_t) : list event :=
  [sos_dma_cache_invalidate (vaddr (sos_dma_malloc env (buf_no rx)))
     (size_t_of_int (length_ rx));
   pico_stack_recv (vaddr (sos_dma_malloc env (buf_no rx))) (length_ rx)].

(** The calls an operation may make to the outside. *)
Definition allowed (o : op) (e : event) : Prop :=
  match o, e with
  | OpInit, ZF_LOG LOGF _ => True
  | OpAllocate, ZF_LOG LOGE _ => True
  | OpAllocateRx _, ZF_LOG LOGE _ => True
  | OpAllocateRx _, sos_dma_cache_invalidate _ _ => True
  | OpSend _ _, ZF_LOG LOGE _ => True
  | OpSend _ _, memcpy _ _ _ => True
  | OpSend _ _, sos_dma_cache_clean _ _ => True
  | OpRxComplete _ _ _, ZF_LOG LOGW _ => True
  | OpPoll _, sos_dma_cache_invalidate _ _ => True
  | OpPoll _, pico_stack_recv _ _ => True
  | _, _ => False
  end.

(** A computation only appends to the trace, and only events in [Q],
    whether it returns or not. *)
Definition emits {A} (Q : event → Prop) (m : M A) : Prop :=
  ∀ w, ∃ es, trace (final (m w)) = trace w ++ es ∧ Forall Q es.

Section LiveAnswers.

Variable driver : Type.
Variable ethif_recv : driver → Live.ethif_err * Z * list (Z * Z) * driver.

(** What [n] successive calls of [ethif_recv] answer (return value and
    length), and the driver after them. *)
Fixpoint answers (n : nat) (d : driver) : list (Live.ethif_err * Z) :=
  match n with
  | O => []
  | S n' =>
      match ethif_recv d with
      | (retval, len, _, d') => (retval, len) :: answers n' d'
      end
  end.

Fixpoint after_calls (n : nat) (d : driver) : driver :=
  match n with
  | O => d
  | S n' =>
      match ethif_recv d with
      | (_, _, _, d') => after_calls n' d'
      end
  end.

(** An answer that reports a packet: no error and a length other than 0. *)
Definition packet (a : Live.ethif_err * Z) : bool :=
  match a with
  | (Live.ETHIF_NOERROR, len) => negb (len =? 0)
  | (Live.ETHIF_ERROR, _) => false
  end.

(** The number of answers before the first that reports no packet. *)
Fixpoint leading_packets (l : list (Live.ethif_err * Z)) : nat :=
  match l with
  | [] => O
  | a :: l' => if packet a then S (leading_packets l') else O
  end.

End LiveAnswers.

(** * Properties *)

(** ** Machine integers *)

Lemma int_wrap_id (x : Z) : INT_MIN ≤ x ≤ INT_MAX → int_wrap x = x.
Proof.
  unfold INT_MIN, INT_MAX, int_wrap. intros Hx.
  rewrite Z.mod_small; lia.
Qed.

(** ** The ring operations *)

Lemma isBufferEmpty_nil {A} (b : ringBuffer A) :
  isBufferEmpty b = true ↔ rb_elems b = [].
Proof. unfold isBufferEmpty. by destruct (rb_elems b). Qed.

Lemma isBufferFull_spec {A} (b : ringBuffer A) :
  isBufferFull b = true ↔ rb_capacity b ≤ Z.of_nat (length (rb_elems b)).
Proof. unfold isBufferFull. apply Z.leb_le. Qed.

Lemma isBufferFull_false {A} (b : ringBuffer A) :
  isBufferFull b = false ↔ Z.of_nat (length (rb_elems b)) < rb_capacity b.
Proof. unfold isBufferFull. rewrite Z.leb_gt. done. Qed.

(** ** One call at a time *)

Section Calls.

Variable cfg : config.

Lemma with_pool_id (w : world) : with_pool (pool_elems w) w = w.
Proof. by destruct w as [[d [pc pl] q n] t]. Qed.

Lemma with_queue_id (w : world) : with_queue (rx_elems w) w = w.
Proof. by destruct w as [[d p [qc ql] n] t]. Qed.

Lemma logged_nil (w : world) : logged [] w = w.
Proof. destruct w as [b t]. unfold logged; simpl. by rewrite app_nil_r. Qed.

(** [alloc_dma_buf] never fails: it answers -1 on an empty free list and
    pops the head otherwise. *)
Lemma alloc_dma_buf_eq (w : world) :
  alloc_dma_buf w =
    match pool_elems w with
    | [] => Ok (-1) (logged [ZF_LOG LOGE "Out of preallocated eth buffers."] w)
    | h :: t => Ok (int_wrap h) (with_pool t w)
    end.
Proof.
  destruct w as [[d [pc pl] q n] t]. unfold alloc_dma_buf, pool_elems.
  by destruct pl.
Qed.

(** [free_dma_buf] appends the index unless one of its assertions fails. *)
Lemma free_dma_buf_eq (h : Z) (w : world) :
  free_dma_buf cfg h w =
    if (h <? N_DMA_BUFS cfg) && negb (isBufferFull (free_pool (buffers w)))
    then Ok tt (with_pool (pool_elems w ++ [h]) w)
    else Fault AssertFailed w.
Proof.
  destruct w as [[d [pc pl] q n] t].
  unfold free_dma_buf, pool_elems, bind, assert, get_buffers, modify; simpl.
  destruct (h <? N_DMA_BUFS cfg); simpl; [|done].
  unfold bufferWrite.
  by destruct (isBufferFull {| rb_capacity := pc; rb_elems := pl |}).
Qed.

Lemma free_dma_buf_Ok (h : Z) (w w' : world) :
  free_dma_buf cfg h w = Ok tt w' ↔
    h < N_DMA_BUFS cfg ∧
    Z.of_nat (length (pool_elems w)) < rb_capacity (free_pool (buffers w)) ∧
    w' = with_pool (pool_elems w ++ [h]) w.
Proof.
  rewrite free_dma_buf_eq.
  destruct (Z.ltb_spec h (N_DMA_BUFS cfg)) as [Hh|Hh]; simpl.
  - destruct (isBufferFull (free_pool (buffers w))) eqn:Hf; simpl.
    + apply isBufferFull_spec in Hf. unfold pool_elems.
      split; [done|]. intros (_ & ? & _). lia.
    + apply isBufferFull_false in Hf. unfold pool_elems in *.
      split; [intros [= <-]; done|]. by intros (_ & _ & ->).
  - split; [done|]. intros (? & _). lia.
Qed.

Lemma array_read_Ok {A} (arr : list A) (i : Z) (x : A) (w w' : world) :
  array_read arr i w = Ok x w' ↔ 0 ≤ i ∧ arr !! Z.to_nat i = Some x ∧ w' = w.
Proof.
  unfold array_read.
  destruct (Z.ltb_spec i 0) as [Hi|Hi]; simpl.
  - unfold raise. split; [done|]. intros (? & _). lia.
  - destruct (arr !! Z.to_nat i) as [y|]; unfold ret, raise.
    + split; [intros [= <- <-]; done|]. by intros (_ & [= <-] & ->).
    + split; [done|]. by intros (_ & ? & _).
Qed.

Lemma array_read_lookup {A} (arr : list A) (i : Z) (x : A) (w : world) :
  0 ≤ i → arr !! Z.to_nat i = Some x → array_read arr i w = Ok x w.
Proof. intros. by apply array_read_Ok. Qed.

End Calls.

(** ** Oversized sends *)

(** The send of the buffer-pool bridge returns 0 at once when the length
    exceeds BUF_SIZE: the only effect is the error log line.  No buffer is
    allocated, so the free list, the receive queue and the transmit counter
    are as before, and nothing is copied. *)
Lemma pool_send_oversized (cfg : config) (input_buf len : Z) (w : world) :
  BUF_SIZE cfg < len →
  ∃ w', pico_eth_send cfg input_buf len w = Ok 0 w' ∧
        buffers w' = buffers w ∧
        length (pool_elems w') = length (pool_elems w) ∧
        copies w' = copies w ∧
        trace w' = trace w ++ [ZF_LOG LOGE "Buffer size %d too big, max %d"].
Proof.
  intros Hlen. unfold pico_eth_send.
  assert ((len >? BUF_SIZE cfg) = true) as -> by lia.
  eexists. split; [reflexivity|]. simpl.
  repeat split. unfold copies; simpl.
  by rewrite filter_app, app_nil_r.
Qed.

(** ** Receive completions *)

Lemma release_cookies_in_bounds (cfg : config) (n : nat) (i : Z)
    (cookies : list Z) (w : world) :
  0 ≤ i → (Z.to_nat i + n ≤ length cookies)%nat →
  in_bounds (release_cookies cfg n i cookies w).
Proof.
  revert i w. induction n as [|n IH]; intros i w Hi Hlen; [done|].
  simpl. unfold bind at 1.
  destruct (lookup_lt_is_Some_2 cookies (Z.to_nat i)) as [c Hc]; [lia|].
  rewrite (array_read_lookup _ _ c) by done.
  unfold bind at 1. rewrite free_dma_buf_eq.
  destruct (_ && _); [|done].
  apply IH; [lia|]. replace (Z.to_nat (i + 1)) with (S (Z.to_nat i)) by lia. lia.
Qed.

(** C10.  Called with num_bufs = 0, [pico_rx_complete] takes the branch
    for a single buffer: once the capacity assertion has passed it reads
    cookies[0] and lens[0], and with an array that has no first element
    the read is outside the array.  With at least one buffer reported and
    arrays of that length, every read stays inside the arrays. *)
Theorem rx_complete_needs_a_buffer (cfg : config) :
  (∀ cookies lens w,
     cookies = [] ∨ lens = [] →
     pico_rx_complete cfg 0 cookies lens w =
       if isBufferFull (rx_queue (buffers w)) then Fault AssertFailed w
       else Fault OutOfBounds w) ∧
  (∀ n cookies lens w,
     (1 ≤ n)%nat → length cookies = n → length lens = n →
     in_bounds (pico_rx_complete cfg n cookies lens w)).
Proof.
  split.
  - intros cookies lens w Hnone. unfold pico_rx_complete; simpl.
    unfold bind, get_buffers, assert.
    destruct (isBufferFull (rx_queue (buffers w))); [done|]. simpl.
    destruct Hnone as [-> | ->]; [done|].
    by destruct cookies.
  - intros n cookies lens w Hn Hc Hl. unfold pico_rx_complete.
    destruct (Nat.ltb_spec 1 n) as [Hgt|Hle].
    + unfold bind at 1. simpl.
      apply release_cookies_in_bounds; simpl; lia.
    + assert (n = 1%nat) as -> by lia.
      destruct cookies as [|c [|??]]; try done.
      destruct lens as [|l [|??]]; try done.
      unfold bind, get_buffers, assert; simpl.
      by destruct (isBufferFull (rx_queue (buffers w))).
Qed.

Lemma rx_complete_needs_a_buffer_witness :
  let w := world_after source_config [OpInit; OpAllocateRx 64] in
  pico_rx_complete source_config 0 [] [] w = Fault OutOfBounds w ∧
  in_bounds (pico_rx_complete source_config 1 [0] [64] w).
Proof.
  intros w.
  destruct (rx_complete_needs_a_buffer source_config) as [Hzero Hone].
  split.
  - apply (Hzero [] [] w). left. reflexivity.
  - apply (Hone 1%nat [0] [64] w); simpl; [lia|reflexivity|reflexivity].
Defined.

(** C3 as the code has it.  A completion for a single buffer (num_bufs
    at most 1) that arrives while the receive queue is full fails the
    capacity assertion:
    the call does not return, nothing is enqueued, the incoming buffer is
    not put back on the free list and the queue keeps its entries. *)
Theorem rx_complete_full_queue_asserts (cfg : config) (n : nat)
    (cookies lens : list Z) (w : world) :
  (n ≤ 1)%nat → isBufferFull (rx_queue (buffers w)) = true →
  pico_rx_complete cfg n cookies lens w = Fault AssertFailed w.
Proof.
  intros Hn Hfull. unfold pico_rx_complete.
  assert ((1 <? n)%nat = false) as -> by (apply Nat.ltb_ge; lia).
  unfold bind, get_buffers, assert. by rewrite Hfull.
Qed.

Lemma rx_complete_full_queue_asserts_witness :
  let w := world_after small_config (OpInit :: receive_frames 0 2 ++ [OpAllocateRx 64]) in
  queued w = [0; 1] ∧ pool_elems w = [3] ∧
  pico_rx_complete small_config 1 [2] [64] w = Fault AssertFailed w.
Proof.
  intros w. split; [reflexivity|]. split; [reflexivity|].
  apply (rx_complete_full_queue_asserts small_config 1 [2] [64] w).
  - lia.
  - reflexivity.
Defined.

(** C3 as stated fails.  With the constants of the source: after 256
    received frames the queue is full; the completion for the next buffer,
    handle 256, does not return, and the buffer is not released to the
    pool. *)
Lemma rx_complete_full_queue_not_released :
  let w := world_after source_config
             (OpInit :: receive_frames 0 256 ++ [OpAllocateRx 64]) in
  run source_config demo_platform
      (OpInit :: receive_frames 0 256 ++ [OpAllocateRx 64]) boot = Ok tt w ∧
  Z.of_nat (length (rx_elems w)) = N_RX_BUFS source_config ∧
  pico_rx_complete source_config 1 [256] [64] w = Fault AssertFailed w ∧
  256 ∉ pool_elems w.
Proof.
  intros w. split; [by vm_compute|]. split; [by vm_compute|].
  split; [by vm_compute|].
  intros Hin. apply (bool_decide_pack (256 ∈ pool_elems w)) in Hin.
  vm_compute in Hin. exact Hin.
Qed.

(** ** Sending on an exhausted pool *)

(** When the free list is empty and a transmit slot is left,
    [pico_eth_send] does not stop at the failed allocation: it counts the
    send, and ends in the access to [dma_bufs[-1]]. *)
Lemma send_exhausted_eq (cfg : config) (input_buf len : Z) (w : world) :
  len ≤ BUF_SIZE cfg → n_tx_bufs (buffers w) ≠ N_TX_BUFS cfg →
  pool_elems w = [] →
  pico_eth_send cfg input_buf len w =
    Fault OutOfBounds
      (with_n_tx (int_wrap (n_tx_bufs (buffers w) + 1))
         (logged [ZF_LOG LOGE "Out of preallocated eth buffers."] w)).
Proof.
  intros Hlen Htx Hpool. unfold pico_eth_send.
  assert ((len >? BUF_SIZE cfg) = false) as -> by lia.
  unfold bind at 1. unfold get_buffers at 1.
  assert ((n_tx_bufs (buffers w) =? N_TX_BUFS cfg) = false) as -> by lia.
  unfold bind at 1. rewrite alloc_dma_buf_eq, Hpool.
  reflexivity.
Qed.

(** C2 on the code.  With the constants of the source: once 512 receive
    buffers have been handed out the free list is empty and no send is in
    flight; a send of 100 bytes then does not return 0: the transmit
    counter goes from 0 to 1 and the call ends in an access outside
    [dma_bufs].  [pico_allocate_rx_buf], on the same empty pool, checks the
    failed allocation and returns 0. *)
Theorem send_on_exhausted_pool_overruns :
  let w := world_after source_config (OpInit :: replicate 512 (OpAllocateRx 2048)) in
  run source_config demo_platform
      (OpInit :: replicate 512 (OpAllocateRx 2048)) boot = Ok tt w ∧
  pool_elems w = [] ∧ n_tx_bufs (buffers w) = 0 ∧
  (∃ w', pico_eth_send source_config 0 100 w = Fault OutOfBounds w' ∧
         n_tx_bufs (buffers w') = 1) ∧
  (∃ w', pico_allocate_rx_buf source_config 100 w = Ok (0, None) w' ∧
         buffers w' = buffers w).
Proof.
  intros w.
  assert (run source_config demo_platform
            (OpInit :: replicate 512 (OpAllocateRx 2048)) boot = Ok tt w) as Hrun
    by (vm_compute; reflexivity).
  assert (pool_elems w = []) as Hpool by (vm_compute; reflexivity).
  assert (n_tx_bufs (buffers w) = 0) as Htx by (vm_compute; reflexivity).
  clearbody w.
  split; [exact Hrun|]. do 2 (split; [assumption|]). split.
  - eexists. split.
    + apply send_exhausted_eq; [cbn; lia|rewrite Htx; cbn; lia|exact Hpool].
    + cbn [with_n_tx buffers set_n_tx_bufs n_tx_bufs]. rewrite Htx. reflexivity.
  - exists (logged [ZF_LOG LOGE "Out of preallocated eth buffers."] w).
    split; [|reflexivity].
    unfold pico_allocate_rx_buf.
    assert ((100 >? BUF_SIZE source_config) = false) as -> by reflexivity.
    unfold bind at 1. rewrite alloc_dma_buf_eq, Hpool. reflexivity.
Qed.

(** ** Initialisation *)

Section Init.

Variable cfg : config.
Variable env : platform.

(** The loop of [init_buffers], when it completes, has appended the
    indices [i], [i+1], ... to the free list and kept the rest. *)
Lemma init_buffers_loop_Ok (n : nat) (i : Z) (w w' : world) :
  init_buffers_loop cfg env n i w = Ok tt w' →
  Z.of_nat (length (pool_elems w)) + Z.of_nat n
    ≤ rb_capacity (free_pool (buffers w)) →
  pool_elems w' = pool_elems w ++ seqZ i (Z.of_nat n) ∧
  rb_capacity (free_pool (buffers w')) = rb_capacity (free_pool (buffers w)) ∧
  rx_queue (buffers w') = rx_queue (buffers w) ∧
  n_tx_bufs (buffers w') = n_tx_bufs (buffers w) ∧
  length (dma_bufs (buffers w')) = length (dma_bufs (buffers w)).
Proof.
  revert i w. induction n as [|n IH]; intros i w Hrun Hroom.
  - injection Hrun as <-. simpl. by rewrite app_nil_r.
  - simpl in Hrun. unfold bind at 1 in Hrun. simpl in Hrun.
    unfold bind at 1 in Hrun.
    destruct (vaddr (sos_dma_malloc env i) =? 0); [done|].
    unfold ret at 1 in Hrun. unfold bind at 1 in Hrun.
    destruct (sos_dma_cache_clean_invalidate env _ _); [|done].
    unfold ret at 1 in Hrun. unfold bind at 1 in Hrun. simpl in Hrun.
    unfold bind at 1 in Hrun. simpl in Hrun.
    destruct w as [[d [pc pl] q ntx] t]. unfold pool_elems in *. simpl in *.
    unfold bufferWrite in Hrun.
    assert (isBufferFull {| rb_capacity := pc; rb_elems := pl |} = false) as Hnf.
    { apply isBufferFull_false. simpl. lia. }
    rewrite Hnf in Hrun.
    apply IH in Hrun; simpl in *; [|rewrite length_app; simpl; lia].
    destruct Hrun as (Hp & Hc & Hq & Hn & Hd).
    rewrite Hp, Hc, Hq, Hn, Hd, length_insert.
    repeat split.
    rewrite <- app_assoc. f_equal. simpl.
    rewrite (seqZ_cons i) by lia. do 2 f_equal; lia.
Qed.

(** A completed [init_buffers] leaves every index on the free list, in
    order, the receive queue empty and no send in flight. *)
Lemma init_buffers_Ok (w0 w : world) :
  init_buffers cfg env w0 = Ok tt w →
  pool_elems w = seqZ 0 (N_DMA_BUFS cfg) ∧
  rb_capacity (free_pool (buffers w)) = N_DMA_BUFS cfg ∧
  rx_queue (buffers w) = bufferInit (N_RX_BUFS cfg) ∧
  n_tx_bufs (buffers w) = 0 ∧
  length (dma_bufs (buffers w)) = Z.to_nat (N_DMA_BUFS cfg).
Proof.
  unfold init_buffers. intros Hrun.
  unfold bind at 1 in Hrun. simpl in Hrun.
  unfold bind at 1 in Hrun. simpl in Hrun.
  unfold bind at 1 in Hrun.
  destruct (calloc_ok env (N_DMA_BUFS cfg)); [|done].
  unfold ret at 1 in Hrun.
  unfold bind at 1 in Hrun. simpl in Hrun.
  unfold bind at 1 in Hrun.
  destruct (calloc_ok env (N_RX_BUFS cfg)); [|done].
  unfold ret at 1 in Hrun.
  destruct (Z.le_gt_cases 0 (N_DMA_BUFS cfg)) as [Hpos|Hneg].
  - apply init_buffers_loop_Ok in Hrun; simpl in *; [|lia].
    destruct Hrun as (Hp & Hc & Hq & Hn & Hd).
    rewrite Hp, Hc, Hq, Hn, Hd, length_replicate.
    repeat split. by rewrite Z2Nat.id.
  - assert (Z.to_nat (N_DMA_BUFS cfg) = 0%nat) as Hz by lia.
    rewrite Hz in Hrun. injection Hrun as <-.
    unfold pool_elems, seqZ. simpl. by rewrite Hz.
Qed.

End Init.

(** ** Allocation from a fresh pool *)

Lemma with_pool_with_pool (l l' : list Z) (w : world) :
  with_pool l (with_pool l' w) = with_pool l w.
Proof. reflexivity. Qed.

(** [n] allocations pop the first [n] indices of the free list. *)
Lemma alloc_n_eq (n : nat) (l rest : list Z) (w : world) :
  pool_elems w = l ++ rest → length l = n →
  Forall (λ x, INT_MIN ≤ x ≤ INT_MAX) l →
  alloc_n n w = Ok l (with_pool rest w).
Proof.
  revert l w. induction n as [|n IH]; intros l w Hpool Hlen Hint.
  - destruct l; [|done]. simpl in *. rewrite <- Hpool.
    by rewrite with_pool_id.
  - destruct l as [|h l]; [done|]. simpl in *.
    apply Forall_cons in Hint as [Hh Hint].
    unfold bind at 1. rewrite alloc_dma_buf_eq, Hpool.
    unfold bind at 1. rewrite (IH l); [|done|lia|done].
    rewrite with_pool_with_pool. unfold ret. by rewrite int_wrap_id.
Qed.

(** C9.  From a freshly initialised pool of capacity N, the first N
    allocations return the handles 0, 1, ..., N-1: pairwise distinct, and
    none of them the failure value -1.  The next allocation returns -1 and
    leaves the buffers as they are (it only logs). *)
Theorem fresh_pool_allocations (cfg : config) (env : platform) (w0 w : world) :
  0 ≤ N_DMA_BUFS cfg ≤ INT_MAX →
  init_buffers cfg env w0 = Ok tt w →
  ∃ w1 w2,
    alloc_n (Z.to_nat (N_DMA_BUFS cfg)) w = Ok (seqZ 0 (N_DMA_BUFS cfg)) w1 ∧
    NoDup (seqZ 0 (N_DMA_BUFS cfg)) ∧
    ((-1) ∉ seqZ 0 (N_DMA_BUFS cfg)) ∧
    alloc_dma_buf w1 = Ok (-1) w2 ∧
    buffers w2 = buffers w1 ∧
    pool_elems w2 = [].
Proof.
  intros HN Hinit.
  apply init_buffers_Ok in Hinit as (Hpool & _).
  exists (with_pool [] w),
    (logged [ZF_LOG LOGE "Out of preallocated eth buffers."] (with_pool [] w)).
  split.
  { apply alloc_n_eq.
    - by rewrite app_nil_r.
    - rewrite length_seqZ. done.
    - apply Forall_forall. intros x Hx. apply elem_of_seqZ in Hx.
      unfold INT_MIN, INT_MAX in *. lia. }
  split; [apply NoDup_seqZ|].
  split; [rewrite elem_of_seqZ; lia|].
  split; [by rewrite alloc_dma_buf_eq|]. done.
Qed.

Lemma fresh_pool_allocations_witness :
  ∃ w1 w2,
    alloc_n 4 (world_after small_config [OpInit]) = Ok [0; 1; 2; 3] w1 ∧
    NoDup [0; 1; 2; 3] ∧ ((-1) ∉ [0; 1; 2; 3]) ∧
    alloc_dma_buf w1 = Ok (-1) w2 ∧
    buffers w2 = buffers w1 ∧
    pool_elems w2 = [].
Proof.
  apply (fresh_pool_allocations small_config demo_platform boot
           (world_after small_config [OpInit])).
  - vm_compute. split; discriminate.
  - reflexivity.
Defined.

(** ** Polling *)

Section Poll.

Variable cfg : config.

Lemma polled_0 (w : world) : polled 0 w = w.
Proof.
  destruct w as [[d [pc pl] [qc ql] n] t].
  unfold polled, logged, with_queue, with_pool, pool_elems, rx_elems; simpl.
  by rewrite !app_nil_r.
Qed.

(** The poll loop entered with a score of [n] dispatches the first
    [min n (queue length)] frames and returns the rest of the score. *)
Lemma poll_loop_eq (n : nat) (w : world) :
  poll_ready cfg w →
  poll_loop cfg n w =
    Ok (Z.of_nat (n - (n `min` length (rx_elems w))))
       (polled (n `min` length (rx_elems w)) w).
Proof.
  revert w. induction n as [|n IH]; intros w [Hq Hroom].
  - simpl. by rewrite polled_0.
  - destruct w as [[d [pc pl] [qc ql] ntx] t].
    unfold pool_elems, rx_elems in *. simpl in Hq, Hroom.
    destruct ql as [|rx ql].
    + cbn [length]. rewrite Nat.min_0_r, Nat.sub_0_r, polled_0. reflexivity.
    + apply Forall_cons in Hq as [[[Hlo Hhi] Hd] Hq].
      destruct (lookup_lt_is_Some_2 d (Z.to_nat (buf_no rx))) as [a Ha]; [done|].
      cbn [poll_loop]. unfold bind at 1. cbn [get_buffers buffers rx_queue].
      unfold isBufferEmpty, bufferRead. cbn [rb_elems rb_capacity].
      unfold bind at 1. cbn [modify buffers set_rx_queue trace].
      unfold bind at 1, dma_buf_at. unfold bind at 1.
      cbn [get_buffers buffers dma_bufs].
      rewrite (array_read_lookup _ _ a) by done.
      unfold bind at 1. cbn [emit buffers trace].
      unfold bind at 1. cbn [emit buffers trace].
      unfold bind at 1. rewrite free_dma_buf_eq.
      unfold pool_elems. cbn [buffers free_pool rb_elems set_rx_queue].
      assert ((buf_no rx <? N_DMA_BUFS cfg) = true) as -> by lia.
      assert (isBufferFull {| rb_capacity := pc; rb_elems := pl |} = false) as ->.
      { apply isBufferFull_false. simpl in *. lia. }
      cbn [andb negb].
      rewrite IH.
      * unfold polled, logged, with_queue, with_pool, pool_elems, rx_elems,
          dispatch_events.
        cbn [buffers trace free_pool rx_queue rb_elems rb_capacity dma_bufs
             set_free_pool set_rx_queue n_tx_bufs length].
        rewrite <- Nat.succ_min_distr.
        cbn [take drop fmap list_fmap flat_map Nat.sub].
        rewrite Ha. rewrite <- !app_assoc. reflexivity.
      * split.
        -- exact Hq.
        -- unfold pool_elems, rx_elems. simpl in *.
           rewrite length_app. simpl. lia.
Qed.


(** Each dispatched frame is one delivery to the stack. *)
Lemma deliveries_polled (k : nat) (w : world) :
  poll_ready cfg w →
  length (deliveries (polled k w)) = (length (deliveries w) + k `min` length (rx_elems w))%nat.
Proof.
  intros [Hq _]. unfold deliveries, polled, logged. cbn [trace].
  rewrite filter_app, length_app. f_equal.
  rewrite <- length_take.
  assert (Forall (λ rx, (Z.to_nat (buf_no rx) < length (dma_bufs (buffers w)))%nat)
            (take k (rx_elems w))) as Hk.
  { apply Forall_take. eapply Forall_impl; [exact Hq|]. by intros ? [_ ?]. }
  induction Hk as [|rx l Hrx _ IH]; [done|].
  cbn [flat_map]. rewrite filter_app, length_app, IH.
  unfold dispatch_events.
  destruct (lookup_lt_is_Some_2 _ _ Hrx) as [a ->]. reflexivity.
Qed.

Lemma poll_ready_polled (k : nat) (w : world) :
  poll_ready cfg w → poll_ready cfg (polled k w).
Proof.
  intros [Hq Hroom]. split.
  - unfold polled, rx_elems; simpl. by apply Forall_drop.
  - unfold polled, rx_elems, pool_elems in *; simpl.
    rewrite length_app, length_fmap, length_take, length_drop. lia.
Qed.

Lemma pico_eth_poll_eq (budget : Z) (w : world) :
  0 ≤ budget → poll_ready cfg w →
  pico_eth_poll cfg budget w =
    Ok (budget - Z.of_nat (Z.to_nat budget `min` length (rx_elems w)))
       (polled (Z.to_nat budget `min` length (rx_elems w)) w).
Proof.
  intros Hb Hready. unfold pico_eth_poll.
  destruct (Z.gtb_spec budget 0) as [Hpos|Hzero].
  - rewrite poll_loop_eq by done. f_equal. lia.
  - assert (budget = 0) as -> by lia. simpl.
    rewrite polled_0. reflexivity.
Qed.

End Poll.

(** The poll of the buffer-pool bridge, in a state where every queued
    frame names a buffer of the pool and the free list has room for them:
    with a budget of at least 0 it dispatches [k] = min(budget, queued
    frames) frames to the stack and returns [budget - k]; with a budget of
    0 or an empty queue it returns the budget and changes nothing; the
    scenario of five queued frames follows. *)
Lemma pool_poll_budget (cfg : config) (budget : Z) (w : world) :
  0 ≤ budget → poll_ready cfg w →
  let k := (Z.to_nat budget `min` length (rx_elems w))%nat in
  pico_eth_poll cfg budget w = Ok (budget - Z.of_nat k) (polled k w) ∧
  length (deliveries (polled k w)) = (length (deliveries w) + k)%nat ∧
  Z.of_nat k ≤ budget ∧
  (budget = 0 ∨ rx_elems w = [] → pico_eth_poll cfg budget w = Ok budget w) ∧
  (length (rx_elems w) = 5%nat →
   pico_eth_poll cfg 3 w = Ok 0 (polled 3 w) ∧
   length (deliveries (polled 3 w)) = (length (deliveries w) + 3)%nat ∧
   pico_eth_poll cfg 5 (polled 3 w) = Ok 3 (polled 2 (polled 3 w)) ∧
   length (deliveries (polled 2 (polled 3 w)))
     = (length (deliveries (polled 3 w)) + 2)%nat ∧
   rx_elems (polled 2 (polled 3 w)) = []).
Proof.
  intros Hb Hready k.
  split; [by apply pico_eth_poll_eq|].
  split.
  { rewrite (deliveries_polled cfg) by done. subst k. lia. }
  split; [lia|].
  split.
  { intros Hnone. rewrite pico_eth_poll_eq by done.
    assert ((Z.to_nat budget `min` length (rx_elems w))%nat = 0%nat) as ->.
    { destruct Hnone as [->| ->]; simpl; lia. }
    rewrite polled_0. f_equal. lia. }
  intros Hfive.
  assert (length (rx_elems (polled 3 w)) = 2%nat) as Htwo.
  { unfold polled, rx_elems in *; simpl. rewrite length_drop. lia. }
  pose proof (poll_ready_polled cfg 3 w Hready) as Hready3.
  split.
  { rewrite pico_eth_poll_eq by (done || lia). rewrite Hfive. reflexivity. }
  split.
  { rewrite (deliveries_polled cfg) by done. rewrite Hfive. reflexivity. }
  split.
  { rewrite pico_eth_poll_eq by (done || lia). rewrite Htwo. reflexivity. }
  split.
  { rewrite (deliveries_polled cfg _ (polled 3 w)) by done. rewrite Htwo. reflexivity. }
  apply length_zero_iff_nil.
  unfold polled at 1. unfold rx_elems at 1. simpl.
  rewrite length_drop. fold (rx_elems (polled 3 w)). lia.
Qed.

(** ** What each entry point does to the buffers when it returns *)

Section Effects.

Variable cfg : config.

Lemma pico_allocate_rx_buf_Ok (sz : Z) (r : Z * option Z) (w w' : world) :
  pico_allocate_rx_buf cfg sz w = Ok r w' →
  buffers w' = buffers w ∨
  ∃ h t, pool_elems w = h :: t ∧ buffers w' = buffers (with_pool t w).
Proof.
  unfold pico_allocate_rx_buf.
  destruct (sz >? BUF_SIZE cfg).
  { intros [= _ <-]. by left. }
  unfold bind at 1. rewrite alloc_dma_buf_eq.
  destruct (pool_elems w) as [|h t] eqn:Hpool.
  { simpl. intros [= _ <-]. by left. }
  destruct (int_wrap h =? -1).
  { intros [= _ <-]. right. by exists h, t. }
  unfold bind at 1, dma_buf_at. unfold bind at 1. cbn [get_buffers].
  destruct (array_read _ _ _) as [a w1|] eqn:Hread; [|done].
  apply array_read_Ok in Hread as (_ & _ & ->).
  intros [= _ <-]. right. by exists h, t.
Qed.

Lemma pico_eth_send_Ok (p len r : Z) (w w' : world) :
  pico_eth_send cfg p len w = Ok r w' →
  (r = 0 ∧ buffers w' = buffers w ∧ copies w' = copies w) ∨
  ∃ h t a, pool_elems w = h :: t ∧ r = len ∧ len ≤ BUF_SIZE cfg ∧
           n_tx_bufs (buffers w) ≠ N_TX_BUFS cfg ∧
           0 ≤ int_wrap h ∧
           dma_bufs (buffers w) !! Z.to_nat (int_wrap h) = Some a ∧
           w' = logged [memcpy (vaddr a) p (size_t_of_int len);
                        sos_dma_cache_clean (vaddr a) (size_t_of_int len)]
                  (with_n_tx (int_wrap (n_tx_bufs (buffers w) + 1))
                     (with_pool t w)).
Proof.
  unfold pico_eth_send.
  destruct (Z.gtb_spec len (BUF_SIZE cfg)) as [Hbig|Hfit].
  { intros [= <- <-]. left. unfold copies. simpl.
    by rewrite filter_app, app_nil_r. }
  unfold bind at 1. cbn [get_buffers].
  destruct (Z.eqb_spec (n_tx_bufs (buffers w)) (N_TX_BUFS cfg)) as [Hmax|Hslot].
  { intros [= <- <-]. by left. }
  unfold bind at 1. rewrite alloc_dma_buf_eq.
  destruct (pool_elems w) as [|h t] eqn:Hpool.
  { discriminate. }
  unfold bind at 1. cbn [get_buffers].
  unfold bind at 1. cbn [modify].
  unfold bind at 1, dma_buf_at. unfold bind at 1. cbn [get_buffers].
  destruct (array_read _ _ _) as [a w1|] eqn:Hread; [|done].
  apply array_read_Ok in Hread as (Hlo & Hget & ->).
  cbn [buffers with_pool set_n_tx_bufs set_free_pool dma_bufs] in Hget.
  intros [= <- <-]. right. exists h, t, a.
  unfold logged. cbn [buffers trace]. rewrite <- app_assoc.
  repeat split; done.
Qed.

Lemma pico_tx_complete_Ok (c : Z) (w w' : world) :
  pico_tx_complete cfg c w = Ok tt w' →
  c < N_DMA_BUFS cfg ∧
  Z.of_nat (length (pool_elems w)) < rb_capacity (free_pool (buffers w)) ∧
  w' = with_n_tx (int_wrap (n_tx_bufs (buffers w) - 1))
         (with_pool (pool_elems w ++ [c]) w).
Proof.
  unfold pico_tx_complete. unfold bind at 1.
  destruct (free_dma_buf cfg c w) as [[] w1|] eqn:Hfree; [|done].
  apply free_dma_buf_Ok in Hfree as (Hc & Hroom & ->).
  intros [= <-]. done.
Qed.

Lemma pico_tx_complete_eq (c : Z) (w : world) :
  c < N_DMA_BUFS cfg →
  Z.of_nat (length (pool_elems w)) < rb_capacity (free_pool (buffers w)) →
  pico_tx_complete cfg c w =
    Ok tt (with_n_tx (int_wrap (n_tx_bufs (buffers w) - 1))
             (with_pool (pool_elems w ++ [c]) w)).
Proof.
  intros Hc Hroom. unfold pico_tx_complete. unfold bind at 1.
  rewrite free_dma_buf_eq.
  assert ((c <? N_DMA_BUFS cfg) = true) as -> by lia.
  assert (isBufferFull (free_pool (buffers w)) = false) as ->.
  { by apply isBufferFull_false. }
  reflexivity.
Qed.

(** The split-frame loop returns when the arrays cover the count, every
    cookie is below N_DMA_BUFS and the free list has room. *)
Lemma release_cookies_eq (n : nat) (i : Z) (cookies : list Z) (w : world) :
  0 ≤ i → (Z.to_nat i + n ≤ length cookies)%nat →
  Forall (λ c, c < N_DMA_BUFS cfg) cookies →
  Z.of_nat (length (pool_elems w)) + Z.of_nat n
    ≤ rb_capacity (free_pool (buffers w)) →
  release_cookies cfg n i cookies w =
    Ok tt (with_pool (pool_elems w ++ take n (drop (Z.to_nat i) cookies)) w).
Proof.
  revert i w. induction n as [|n IH]; intros i w Hi Hlen Hall Hroom.
  - simpl. by rewrite app_nil_r, with_pool_id.
  - destruct (lookup_lt_is_Some_2 cookies (Z.to_nat i)) as [c Hc]; [lia|].
    cbn [release_cookies]. unfold bind at 1.
    rewrite (array_read_lookup _ _ c) by done.
    unfold bind at 1. rewrite free_dma_buf_eq.
    assert ((c <? N_DMA_BUFS cfg) = true) as ->.
    { apply Z.ltb_lt. eapply (proj1 (Forall_forall _ _) Hall).
      by eapply list_elem_of_lookup_2. }
    assert (isBufferFull (free_pool (buffers w)) = false) as ->.
    { apply isBufferFull_false. unfold pool_elems in *. lia. }
    cbn [andb negb].
    rewrite IH; [|lia|lia|done|].
    + replace (Z.to_nat (i + 1)) with (S (Z.to_nat i)) by lia.
      rewrite (drop_S _ _ _ Hc). cbn [take].
      unfold pool_elems, with_pool. simpl. rewrite <- app_assoc. reflexivity.
    + unfold pool_elems in *. simpl. rewrite length_app. simpl. lia.
Qed.

Lemma release_cookies_Ok (n : nat) (i : Z) (cookies : list Z) (w w' : world) :
  0 ≤ i →
  release_cookies cfg n i cookies w = Ok tt w' →
  length (take n (drop (Z.to_nat i) cookies)) = n ∧
  ((0 < n)%nat → Z.of_nat (length (pool_elems w)) + Z.of_nat n
                   ≤ rb_capacity (free_pool (buffers w))) ∧
  Forall (λ c, c < N_DMA_BUFS cfg) (take n (drop (Z.to_nat i) cookies)) ∧
  w' = with_pool (pool_elems w ++ take n (drop (Z.to_nat i) cookies)) w.
Proof.
  revert i w. induction n as [|n IH]; intros i w Hi.
  - intros [= <-]. simpl. rewrite app_nil_r, with_pool_id.
    repeat split; [lia|done].
  - cbn [release_cookies]. unfold bind at 1.
    destruct (array_read cookies i w) as [c w1|] eqn:Hread; [|done].
    apply array_read_Ok in Hread as (_ & Hc & ->).
    unfold bind at 1.
    destruct (free_dma_buf cfg c w) as [[] w1|] eqn:Hfree; [|done].
    apply free_dma_buf_Ok in Hfree as (Hlt & Hroom & ->).
    intros Hrest. apply IH in Hrest as (Hlen & Hroom' & Hall & ->); [|lia].
    replace (Z.to_nat (i + 1)) with (S (Z.to_nat i)) in * by lia.
    rewrite (drop_S _ _ _ Hc). cbn [take length].
    unfold pool_elems in *. cbn [with_pool buffers free_pool rb_elems rb_capacity
      set_free_pool] in *.
    split; [by rewrite Hlen|].
    split.
    { intros _. destruct n as [|n]; [lia|].
      rewrite length_app in Hroom'. simpl in Hroom'. lia. }
    split; [by apply Forall_cons|].
    rewrite <- app_assoc. reflexivity.
Qed.

Lemma pico_rx_complete_Ok (n : nat) (cookies lens : list Z) (w w' : world) :
  length cookies = n →
  pico_rx_complete cfg n cookies lens w = Ok tt w' →
  ((1 < n)%nat ∧
   Z.of_nat (length (pool_elems w)) + Z.of_nat n
     ≤ rb_capacity (free_pool (buffers w)) ∧
   Forall (λ c, c < N_DMA_BUFS cfg) cookies ∧
   w' = with_pool (pool_elems w ++ cookies)
          (logged [ZF_LOG LOGW "Frame splitting not handled"] w)) ∨
  (∃ c l, cookies = [c] ∧ lens !! 0%nat = Some l ∧
          Z.of_nat (length (rx_elems w)) < rb_capacity (rx_queue (buffers w)) ∧
          w' = with_queue (rx_elems w ++ [{| buf_no := c; length_ := l |}]) w).
Proof.
  intros Hlen. unfold pico_rx_complete.
  destruct (Nat.ltb_spec 1 n) as [Hsplit|Hone].
  - unfold bind at 1. cbn [emit].
    intros Hrel. apply release_cookies_Ok in Hrel as (_ & Hroom & Hall & ->); [|done].
    left. simpl in Hall, Hroom |- *.
    rewrite drop_0, take_ge in * by lia.
    split; [done|]. split; [apply Hroom; lia|]. split; [done|]. reflexivity.
  - unfold bind at 1. cbn [get_buffers].
    unfold bind at 1.
    destruct (isBufferFull (rx_queue (buffers w))) eqn:Hfull; [done|].
    cbn [negb assert]. unfold ret at 1. cbv iota.
    unfold bind at 1.
    destruct (array_read cookies 0 w) as [c w1|] eqn:Hc; [|done].
    apply array_read_Ok in Hc as (_ & Hc & ->).
    unfold bind at 1.
    destruct (array_read lens 0 w) as [l w1|] eqn:Hl; [|done].
    apply array_read_Ok in Hl as (_ & Hl & ->).
    unfold bufferWrite. rewrite Hfull. intros [= <-].
    right. exists c, l.
    destruct cookies as [|c' [|??]]; simpl in *; try lia; try done.
    injection Hc as ->.
    apply isBufferFull_false in Hfull.
    repeat split; done.
Qed.

End Effects.

(** ** The ownership invariant *)

Section Invariant.

Variable cfg : config.
Variable env : platform.
Hypothesis Hcfg : config_ok cfg.

Lemma inv_ext (w w' : world) (g : owners) :
  buffers w' = buffers w → inv cfg w g → inv cfg w' g.
Proof.
  intros Hb [H1 H2 H3 H4 H5 H6 H7].
  unfold pool_elems, queued, rx_elems in *.
  constructor; unfold pool_elems, queued, rx_elems; by rewrite Hb.
Qed.

Lemma inv_owners_ext (w : world) (g g' : owners) :
  tx_owned g' = tx_owned g → rx_owned g' = rx_owned g →
  inv cfg w g → inv cfg w g'.
Proof.
  intros Ht Hr [H1 H2 H3 H4 H5 H6 H7].
  constructor; rewrite ?Ht, ?Hr; done.
Qed.

Lemma inv_init (w0 w : world) :
  init_buffers cfg env w0 = Ok tt w → inv cfg w no_owners.
Proof.
  intros Hinit. apply init_buffers_Ok in Hinit as (Hp & Hc & Hq & Hn & Hd).
  destruct Hcfg as (HN & HR & HT).
  constructor; unfold queued, rx_elems; rewrite ?Hp, ?Hq, ?Hn; simpl;
    rewrite ?app_nil_r; try done; lia.
Qed.

Lemma inv_poll_ready (w : world) (g : owners) :
  inv cfg w g → poll_ready cfg w.
Proof.
  intros [Hown Hdma Hpc Hqc Hql Htx Hmax].
  destruct Hcfg as (HN & _).
  split.
  - apply Forall_forall. intros rx Hrx.
    assert (buf_no rx ∈ seqZ 0 (N_DMA_BUFS cfg)) as Hin.
    { rewrite <- Hown. rewrite !elem_of_app. right; left.
      unfold queued. by apply list_elem_of_fmap_2. }
    apply elem_of_seqZ in Hin. rewrite Hdma. lia.
  - apply Permutation_length in Hown.
    rewrite !length_app, length_seqZ in Hown.
    unfold queued in Hown. rewrite length_fmap in Hown. lia.
Qed.

Lemma taken_unique (l taken pre rest : list Z) :
  l = taken ++ rest → l = pre ++ rest → taken = pre.
Proof. intros -> H. by apply app_inv_tail in H. Qed.

Lemma inv_polled (k : nat) (w : world) (g : owners) :
  inv cfg w g → inv cfg (polled k w) g.
Proof.
  intros [Hown Hdma Hpc Hqc Hql Htx Hmax].
  constructor; try done.
  - rewrite <- Hown. unfold polled, pool_elems, queued, rx_elems. simpl.
    rewrite <- (take_drop k (rb_elems (rx_queue (buffers w)))) at 3.
    rewrite fmap_app, <- !app_assoc. reflexivity.
  - unfold polled, rx_elems in *. simpl. rewrite length_drop. lia.
Qed.

Lemma keep_pool (w w' : world) :
  buffers w' = buffers w → buffers w' = buffers (with_pool (pool_elems w') w).
Proof.
  intros Hb. unfold pool_elems. rewrite Hb.
  fold (pool_elems w). by rewrite with_pool_id.
Qed.

Lemma pop_pool (t : list Z) (w w' : world) :
  buffers w' = buffers (with_pool t w) →
  buffers w' = buffers (with_pool (pool_elems w') w).
Proof. intros Hb. unfold pool_elems. by rewrite Hb. Qed.

(** What leaves the free list in an allocation belongs to the caller. *)
Lemma inv_take_rx (w w' : world) (g g' : owners) (taken : list Z) :
  inv cfg w g →
  pool_elems w = taken ++ pool_elems w' →
  buffers w' = buffers (with_pool (pool_elems w') w) →
  tx_owned g' = tx_owned g → rx_owned g' = taken ++ rx_owned g →
  inv cfg w' g'.
Proof.
  intros [Hown Hdma Hpc Hqc Hql Htx Hmax] Hpool Hb Ht Hr.
  apply (inv_ext (with_pool (pool_elems w') w)); [done|].
  constructor; rewrite ?Ht, ?Hr; try done.
  rewrite <- Hown, Hpool.
  unfold pool_elems at 1, queued, rx_elems. simpl.
  fold (rx_elems w). fold (queued w). solve_Permutation.
Qed.

(** The buffer an accepted send takes belongs to the transmit path. *)
Lemma inv_send (w : world) (g g' : owners) (h : Z) (t : list Z) :
  inv cfg w g →
  pool_elems w = h :: t →
  n_tx_bufs (buffers w) ≠ N_TX_BUFS cfg →
  tx_owned g' = h :: tx_owned g → rx_owned g' = rx_owned g →
  inv cfg (with_n_tx (int_wrap (n_tx_bufs (buffers w) + 1)) (with_pool t w)) g'.
Proof.
  intros [Hown Hdma Hpc Hqc Hql Htx Hmax] Hpool Hslot Ht Hr.
  destruct Hcfg as (_ & _ & HT).
  assert (int_wrap (n_tx_bufs (buffers w) + 1) = n_tx_bufs (buffers w) + 1) as Hw.
  { apply int_wrap_id. unfold INT_MIN. lia. }
  constructor; rewrite ?Ht, ?Hr, ?Hw; try done.
  - rewrite <- Hown, Hpool.
    unfold pool_elems at 1, queued, rx_elems. simpl.
    fold (rx_elems w). fold (queued w). solve_Permutation.
  - simpl. rewrite ?Hw. simpl. lia.
  - simpl. rewrite ?Hw. lia.
Qed.

(** A buffer given back by its owner returns to the free list. *)
Lemma inv_release_rx (w : world) (g g' : owners) (back : list Z) :
  inv cfg w g →
  tx_owned g' = tx_owned g → rx_owned g ≡ₚ back ++ rx_owned g' →
  inv cfg (with_pool (pool_elems w ++ back) w) g'.
Proof.
  intros [Hown Hdma Hpc Hqc Hql Htx Hmax] Ht Hr.
  constructor; rewrite ?Ht; try done.
  rewrite <- Hown, Hr.
  unfold pool_elems at 1, queued, rx_elems. simpl.
  fold (rx_elems w). fold (queued w). solve_Permutation.
Qed.

Lemma inv_tx_complete (w : world) (g g' : owners) (c : Z) :
  inv cfg w g →
  tx_owned g ≡ₚ c :: tx_owned g' → rx_owned g' = rx_owned g →
  inv cfg (with_n_tx (int_wrap (n_tx_bufs (buffers w) - 1))
             (with_pool (pool_elems w ++ [c]) w)) g'.
Proof.
  intros [Hown Hdma Hpc Hqc Hql Htx Hmax] Ht Hr.
  destruct Hcfg as (_ & _ & HT).
  pose proof (Permutation_length Ht) as Hlen. simpl in Hlen.
  assert (int_wrap (n_tx_bufs (buffers w) - 1) = n_tx_bufs (buffers w) - 1) as Hw.
  { apply int_wrap_id. unfold INT_MIN, INT_MAX in *. lia. }
  constructor; rewrite ?Hr; try done.
  - rewrite <- Hown, Ht.
    unfold pool_elems at 1, queued, rx_elems. simpl.
    fold (rx_elems w). fold (queued w). solve_Permutation.
  - simpl. rewrite ?Hw. lia.
  - simpl. rewrite ?Hw. lia.
Qed.

Lemma inv_enqueue (w : world) (g g' : owners) (c l : Z) :
  inv cfg w g →
  Z.of_nat (length (rx_elems w)) < rb_capacity (rx_queue (buffers w)) →
  tx_owned g' = tx_owned g → rx_owned g ≡ₚ [c] ++ rx_owned g' →
  inv cfg (with_queue (rx_elems w ++ [{| buf_no := c; length_ := l |}]) w) g'.
Proof.
  intros [Hown Hdma Hpc Hqc Hql Htx Hmax] Hroom Ht Hr.
  constructor; rewrite ?Ht; try done.
  - rewrite <- Hown, Hr.
    change (pool_elems w
              ++ (buf_no <$> (rx_elems w ++ [{| buf_no := c; length_ := l |}]))
              ++ tx_owned g ++ rx_owned g'
            ≡ₚ pool_elems w ++ queued w ++ tx_owned g ++ [c] ++ rx_owned g').
    rewrite fmap_app. fold (queued w). simpl. solve_Permutation.
  - change (Z.of_nat (length (rx_elems w ++ [{| buf_no := c; length_ := l |}]))
            ≤ N_RX_BUFS cfg).
    rewrite length_app. simpl. lia.
Qed.

Lemma inv_step (o : op) (w w' : world) (g g' : owners) :
  inv cfg w g → step cfg env o w = Ok tt w' → moves o w w' g g' →
  inv cfg w' g'.
Proof.
  intros Hinv Hstep Hmoves.
  destruct o as [| |sz|h|p len|c|n cookies lens|budget]; simpl in Hstep, Hmoves.
  - (* init *)
    subst g'. by eapply inv_init.
  - (* alloc_dma_buf *)
    destruct Hmoves as (taken & Htaken & Ht & Hr).
    unfold bind in Hstep. rewrite alloc_dma_buf_eq in Hstep.
    apply (inv_take_rx w w' g g' taken); try done.
    destruct (pool_elems w) as [|h t] eqn:Hpool; injection Hstep as <-.
    + apply keep_pool. reflexivity.
    + by apply (pop_pool t).
  - (* pico_allocate_rx_buf *)
    destruct Hmoves as (taken & Htaken & Ht & Hr).
    unfold bind in Hstep.
    destruct (pico_allocate_rx_buf cfg sz w) as [r w1|] eqn:Halloc; [|done].
    injection Hstep as ->.
    apply (inv_take_rx w w' g g' taken); try done.
    apply pico_allocate_rx_buf_Ok in Halloc as [Hb|(h & t & _ & Hb)].
    + by apply keep_pool.
    + by apply (pop_pool t).
  - (* free_dma_buf *)
    destruct Hmoves as (Ht & Hr).
    apply free_dma_buf_Ok in Hstep as (_ & _ & ->).
    by apply (inv_release_rx w g g' [h]).
  - (* pico_eth_send *)
    destruct Hmoves as (taken & Htaken & Ht & Hr).
    unfold bind in Hstep.
    destruct (pico_eth_send cfg p len w) as [r w1|] eqn:Hsend; [|done].
    injection Hstep as ->.
    apply pico_eth_send_Ok in Hsend
      as [(_ & Hb & _)|(h & t & a & Hpool & _ & _ & Hslot & _ & _ & ->)].
    + assert (taken = []) as ->.
      { apply (taken_unique (pool_elems w) taken [] (pool_elems w')); [done|].
        unfold pool_elems. by rewrite Hb. }
      apply (inv_ext w); [done|]. by apply (inv_owners_ext w g).
    + assert (taken = [h]) as ->.
      { apply (taken_unique (pool_elems w) taken [h] t); [done|by rewrite Hpool]. }
      apply (inv_ext (with_n_tx (int_wrap (n_tx_bufs (buffers w) + 1))
                        (with_pool t w))); [done|].
      by apply (inv_send w g g' h t).
  - (* pico_tx_complete *)
    destruct Hmoves as (Ht & Hr).
    apply pico_tx_complete_Ok in Hstep as (_ & _ & ->).
    by apply (inv_tx_complete w g g' c).
  - (* pico_rx_complete *)
    destruct Hmoves as (Hlc & Hll & Ht & Hr).
    apply pico_rx_complete_Ok in Hstep
      as [(_ & _ & _ & ->)|(c & l & -> & _ & Hroom & ->)]; [| |done].
    + apply (inv_release_rx (logged [ZF_LOG LOGW "Frame splitting not handled"] w)
               g g' cookies); [|done|done].
      by apply (inv_ext w).
    + by apply (inv_enqueue w g g' c l).
  - (* poll *)
    subst g'. unfold bind in Hstep.
    destruct (pico_eth_poll cfg budget w) as [r w1|] eqn:Hpoll; [|done].
    injection Hstep as ->.
    unfold pico_eth_poll in Hpoll.
    destruct (Z.gtb_spec budget 0) as [Hpos|Hle].
    + rewrite poll_loop_eq in Hpoll by by eapply inv_poll_ready.
      injection Hpoll as _ <-. by apply inv_polled.
    + by injection Hpoll as _ <-.
Qed.

(** Every state reached within the contract satisfies the invariant. *)
Lemma reachable_inv (w : world) (g : owners) :
  reachable cfg env w g → inv cfg w g.
Proof.
  induction 1 as [w0 w Hinit|w g o w' g' _ IH Hstep Hmoves].
  - by eapply inv_init.
  - by eapply inv_step.
Qed.

End Invariant.

(** ** Conservation of buffers *)

Lemma filter_none {A} (P : A → Prop) `{∀ x, Decision (P x)} (l : list A) :
  Forall (λ x, ¬ P x) l → filter P l = [].
Proof.
  induction 1 as [|x l Hx _ IH]; [done|].
  by rewrite filter_cons_False.
Qed.

Lemma filter_all {A} (P : A → Prop) `{∀ x, Decision (P x)} (l : list A) :
  Forall P l → filter P l = l.
Proof.
  induction 1 as [|x l Hx _ IH]; [done|].
  rewrite filter_cons_True by done. by rewrite IH.
Qed.

(** When the owners of all buffers are pairwise distinct, the buffers out
    of the pool are those of the other owners. *)
Lemma allocated_others (cfg : config) (w : world) (others : list Z) :
  pool_elems w ++ others ≡ₚ seqZ 0 (N_DMA_BUFS cfg) →
  allocated cfg w ≡ₚ others.
Proof.
  intros Hown. unfold allocated.
  assert (NoDup (pool_elems w ++ others)) as Hnd.
  { rewrite Hown. apply NoDup_seqZ. }
  apply NoDup_app in Hnd as (_ & Hdisj & _).
  rewrite <- Hown, filter_app.
  rewrite filter_none, filter_all; [done| |].
  - apply Forall_forall. intros x Hx Hin. by apply (Hdisj x).
  - apply Forall_forall. intros x Hx Hnot. by apply Hnot.
Qed.

(** C1 as the code has it.  In every state reached from initialisation by
    operations used within the contract (a handle is given back only by
    its owner, once), the buffers out of the pool and the buffers on the
    free list add up to N_DMA_BUFS; the buffers out of the pool are those
    in the receive queue, with the transmit path or with a holder of an
    allocation, and no buffer has two owners. *)
Theorem buffers_conserved (cfg : config) (env : platform)
    (w : world) (g : owners) :
  config_ok cfg → reachable cfg env w g →
  allocated_count cfg w + free_count w = N_DMA_BUFS cfg ∧
  allocated cfg w ≡ₚ queued w ++ tx_owned g ++ rx_owned g ∧
  NoDup (pool_elems w ++ queued w ++ tx_owned g ++ rx_owned g) ∧
  Z.of_nat (length (pool_elems w) + length (queued w)
            + length (tx_owned g) + length (rx_owned g)) = N_DMA_BUFS cfg.
Proof.
  intros Hcfg Hreach.
  pose proof (reachable_inv cfg env Hcfg w g Hreach) as [Hown _ _ _ _ _ _].
  destruct Hcfg as (HN & _).
  pose proof (allocated_others cfg w _ Hown) as Halloc.
  pose proof (Permutation_length Hown) as Hlen.
  rewrite !length_app, length_seqZ in Hlen.
  split.
  { unfold allocated_count, free_count. rewrite Halloc, !length_app. lia. }
  split; [done|].
  split; [rewrite Hown; apply NoDup_seqZ|]. lia.
Qed.

Lemma buffers_conserved_witness :
  let w := world_after small_config [OpInit; OpSend 0 100] in
  let g := {| tx_owned := [0]; rx_owned := [] |} in
  allocated_count small_config w + free_count w = 4 ∧
  allocated small_config w ≡ₚ queued w ++ [0] ++ [] ∧
  NoDup (pool_elems w ++ queued w ++ [0] ++ []) ∧
  Z.of_nat (length (pool_elems w) + length (queued w) + 1 + 0) = 4.
Proof.
  intros w g.
  apply (buffers_conserved small_config demo_platform w g).
  - vm_compute. repeat split; discriminate.
  - apply (reach_step small_config demo_platform
             (world_after small_config [OpInit]) no_owners (OpSend 0 100)).
    + by apply (reach_boot small_config demo_platform boot).
    + reflexivity.
    + exists [0]. repeat split.
Defined.

(** C1 as stated fails.  With the constants of the source: two buffers
    are allocated and the first is released twice; both releases return.
    The free list then holds 512 entries, handle 0 twice, while buffer 1 is
    still out of the pool: 1 + 512 is not 512. *)
Lemma double_release_breaks_conservation :
  let ops := [OpInit; OpAllocate; OpAllocate; OpRelease 0; OpRelease 0] in
  let w := world_after source_config ops in
  run source_config demo_platform ops boot = Ok tt w ∧
  pool_elems w = seqZ 2 510 ++ [0; 0] ∧
  allocated source_config w = [1] ∧
  free_count w = 512 ∧
  allocated_count source_config w + free_count w ≠ N_DMA_BUFS source_config.
Proof.
  intros ops w.
  split; [vm_compute; reflexivity|].
  split; [vm_compute; reflexivity|].
  split; [vm_compute; reflexivity|].
  split; [vm_compute; reflexivity|].
  vm_compute. discriminate.
Qed.

(** ** The transmit counter *)

(** C5 as the code has it.  In every state reached within the contract,
    where a transmit completion is delivered only for a buffer that an
    accepted send took and that has not been completed yet, the counter is
    the number of such buffers: never negative, never above N_TX_BUFS.  A
    send that returns either was accepted (the counter grows by one, a
    buffer leaves the free list, the length is returned) or was refused
    (0 is returned, the buffers are untouched); the completion of a buffer
    in flight returns and lowers the counter by one.  With two transmit
    slots: two sends succeed, a third returns 0, and after one completion a
    send succeeds again. *)
Theorem tx_counter_bounded (cfg : config) (env : platform)
    (w : world) (g : owners) :
  config_ok cfg → reachable cfg env w g →
  n_tx_bufs (buffers w) = Z.of_nat (length (tx_owned g)) ∧
  0 ≤ n_tx_bufs (buffers w) ≤ N_TX_BUFS cfg ∧
  (∀ p len r w',
     pico_eth_send cfg p len w = Ok r w' →
     (r = len ∧ n_tx_bufs (buffers w') = n_tx_bufs (buffers w) + 1 ∧
      free_count w' = free_count w - 1 ∧
      length (copies w') = S (length (copies w))) ∨
     (r = 0 ∧ buffers w' = buffers w ∧ copies w' = copies w)) ∧
  (∀ c, c ∈ tx_owned g →
     ∃ w', pico_tx_complete cfg c w = Ok tt w' ∧
           n_tx_bufs (buffers w') = n_tx_bufs (buffers w) - 1 ∧
           free_count w' = free_count w + 1) ∧
  (∃ w', tx_scenario boot = Ok [100; 100; 0; 100] w').
Proof.
  intros Hcfg Hreach.
  pose proof (reachable_inv cfg env Hcfg w g Hreach)
    as [Hown Hdma Hpc Hqc Hql Htx Hmax].
  destruct Hcfg as (HN & HR & HT).
  split; [done|]. split; [lia|]. split; [|split].
  - intros p len r w' Hsend.
    apply pico_eth_send_Ok in Hsend
      as [(-> & Hb & Hcp)|(h & t & a & Hpool & -> & Hfit & Hslot & _ & _ & ->)].
    + by right.
    + left. split; [done|].
      unfold free_count, copies, logged, pool_elems in *. simpl.
      rewrite Hpool. rewrite int_wrap_id by (unfold INT_MIN, INT_MAX in *; lia).
      split; [done|]. split; [simpl; lia|].
      rewrite filter_app, length_app. simpl. lia.
  - intros c Hc.
    assert (c ∈ seqZ 0 (N_DMA_BUFS cfg)) as Hin.
    { rewrite <- Hown, !elem_of_app. auto. }
    apply elem_of_seqZ in Hin.
    apply Permutation_length in Hown.
    rewrite !length_app, length_seqZ in Hown.
    assert (0 < length (tx_owned g))%nat as Hpos.
    { destruct (tx_owned g); [by apply elem_of_nil in Hc|simpl; lia]. }
    eexists. split.
    + apply pico_tx_complete_eq; [lia|]. rewrite Hpc. lia.
    + unfold free_count, pool_elems. simpl.
      rewrite int_wrap_id by (unfold INT_MIN, INT_MAX in *; lia).
      rewrite length_app. simpl. lia.
  - eexists. vm_compute. reflexivity.
Qed.

Lemma tx_counter_bounded_witness :
  let w := world_after small_config [OpInit; OpSend 0 100; OpSend 0 100] in
  n_tx_bufs (buffers w) = 2 ∧
  0 ≤ n_tx_bufs (buffers w) ≤ 2 ∧
  (∃ w', pico_tx_complete small_config 1 w = Ok tt w' ∧
         n_tx_bufs (buffers w') = 1 ∧ free_count w' = 3).
Proof.
  intros w.
  assert (config_ok small_config) as Hcfg.
  { vm_compute. repeat split; discriminate. }
  assert (reachable small_config demo_platform w
            {| tx_owned := [1; 0]; rx_owned := [] |}) as Hreach.
  { apply (reach_step small_config demo_platform
             (world_after small_config [OpInit; OpSend 0 100])
             {| tx_owned := [0]; rx_owned := [] |} (OpSend 0 100)).
    - apply (reach_step small_config demo_platform
               (world_after small_config [OpInit]) no_owners (OpSend 0 100)).
      + by apply (reach_boot small_config demo_platform boot).
      + reflexivity.
      + exists [0]. repeat split.
    - reflexivity.
    - exists [1]. repeat split. }
  destruct (tx_counter_bounded small_config demo_platform w _ Hcfg Hreach)
    as (Hn & Hb & _ & Hdone & _).
  split; [exact Hn|]. split; [exact Hb|].
  apply (Hdone 1). apply list_elem_of_here.
Defined.

(** C5 as stated fails.  With the constants of the source: a receive
    buffer is handed out, and a transmit completion arrives for it although
    nothing was sent; the completion returns and the counter is -1. *)
Lemma stray_tx_complete_goes_negative :
  let ops := [OpInit; OpAllocateRx 64; OpTxComplete 0] in
  let w := world_after source_config ops in
  run source_config demo_platform ops boot = Ok tt w ∧
  n_tx_bufs (buffers w) = -1.
Proof.
  intros ops w. split; vm_compute; reflexivity.
Qed.

(** ** Frames split over several buffers *)

(** C7.  A completion that reports more than one buffer, for buffers that
    are out of the pool (each cookie below N_DMA_BUFS, and room for all of
    them on the free list), returns after the warning
    "Frame splitting not handled": every cookie is appended to the free
    list, nothing is enqueued for the stack and nothing is delivered. *)
Theorem split_frame_released (cfg : config) (n : nat)
    (cookies lens : list Z) (w : world) :
  (1 < n)%nat → length cookies = n →
  Forall (λ c, c < N_DMA_BUFS cfg) cookies →
  Z.of_nat (length (pool_elems w)) + Z.of_nat n
    ≤ rb_capacity (free_pool (buffers w)) →
  ∃ w', pico_rx_complete cfg n cookies lens w = Ok tt w' ∧
        pool_elems w' = pool_elems w ++ cookies ∧
        rx_elems w' = rx_elems w ∧
        deliveries w' = deliveries w ∧
        trace w' = trace w ++ [ZF_LOG LOGW "Frame splitting not handled"].
Proof.
  intros Hn Hlen Hall Hroom.
  exists (with_pool (pool_elems w ++ cookies)
            (logged [ZF_LOG LOGW "Frame splitting not handled"] w)).
  split.
  - unfold pico_rx_complete.
    assert ((1 <? n)%nat = true) as -> by (apply Nat.ltb_lt; lia).
    unfold bind at 1. cbn [emit].
    rewrite release_cookies_eq; [|done|simpl; lia|done|done].
    simpl. rewrite drop_0, take_ge by lia. reflexivity.
  - split; [done|]. split; [done|]. split; [|done].
    unfold deliveries. simpl. by rewrite filter_app, app_nil_r.
Qed.

Lemma split_frame_released_witness :
  let w := world_after source_config
             [OpInit; OpAllocateRx 2048; OpAllocateRx 2048] in
  ∃ w', pico_rx_complete source_config 2 [0; 1] [2048; 1000] w = Ok tt w' ∧
        pool_elems w' = pool_elems w ++ [0; 1] ∧
        rx_elems w' = rx_elems w ∧
        deliveries w' = deliveries w ∧
        trace w' = trace w ++ [ZF_LOG LOGW "Frame splitting not handled"].
Proof.
  intros w.
  apply (split_frame_released source_config 2 [0; 1] [2048; 1000] w).
  - lia.
  - reflexivity.
  - repeat constructor.
  - vm_compute. discriminate.
Defined.

(** In a state reached within the contract, the buffers of a frame the
    driver owns are all below N_DMA_BUFS, and the free list has room for
    them. *)
Lemma split_frame_conditions (cfg : config) (env : platform)
    (w : world) (g : owners) (cookies rest : list Z) :
  config_ok cfg → reachable cfg env w g →
  rx_owned g ≡ₚ cookies ++ rest →
  Forall (λ c, c < N_DMA_BUFS cfg) cookies ∧
  Z.of_nat (length (pool_elems w)) + Z.of_nat (length cookies)
    ≤ rb_capacity (free_pool (buffers w)).
Proof.
  intros Hcfg Hreach Hown.
  pose proof (reachable_inv cfg env Hcfg w g Hreach)
    as [Hinv _ Hpc _ _ _ _].
  destruct Hcfg as (HN & _).
  rewrite Hown in Hinv. split.
  - apply Forall_forall. intros c Hc.
    assert (c ∈ seqZ 0 (N_DMA_BUFS cfg)) as Hin.
    { rewrite <- Hinv, !elem_of_app. auto. }
    apply elem_of_seqZ in Hin. lia.
  - apply Permutation_length in Hinv.
    rewrite !length_app, length_seqZ in Hinv. rewrite Hpc. lia.
Qed.

(** ** Releasing a handle *)

(** C8 as the code has it.  [free_dma_buf] fails an assertion when the
    handle is N_DMA_BUFS or more, and when the free list is already full;
    a handle of the pool released while the free list has room is appended
    to it, whoever owns it.  The free list stays free of duplicates when
    the handle released was not on it. *)
Theorem release_checks (cfg : config) (h : Z) (w : world) :
  (N_DMA_BUFS cfg ≤ h ∨
   rb_capacity (free_pool (buffers w)) ≤ Z.of_nat (length (pool_elems w)) →
   free_dma_buf cfg h w = Fault AssertFailed w) ∧
  (0 ≤ h < N_DMA_BUFS cfg →
   Z.of_nat (length (pool_elems w)) < rb_capacity (free_pool (buffers w)) →
   free_dma_buf cfg h w = Ok tt (with_pool (pool_elems w ++ [h]) w)) ∧
  (∀ w', NoDup (pool_elems w) → h ∉ pool_elems w →
         free_dma_buf cfg h w = Ok tt w' → NoDup (pool_elems w')).
Proof.
  split; [|split].
  - intros Hbad. rewrite free_dma_buf_eq.
    destruct (Z.ltb_spec h (N_DMA_BUFS cfg)) as [Hlt|Hge]; [|done].
    destruct Hbad as [Hbad|Hfull]; [lia|].
    assert (isBufferFull (free_pool (buffers w)) = true) as ->; [|done].
    by apply isBufferFull_spec.
  - intros [_ Hlt] Hroom. by apply free_dma_buf_Ok.
  - intros w' Hnd Hnew Hfree.
    apply free_dma_buf_Ok in Hfree as (_ & _ & ->).
    change (NoDup (pool_elems w ++ [h])).
    apply NoDup_app. split; [done|]. split.
    + intros x Hx Hin. apply list_elem_of_singleton in Hin. by subst.
    + apply NoDup_singleton.
Qed.

Lemma release_checks_witness :
  let w := world_after source_config [OpInit; OpAllocate] in
  free_dma_buf source_config 512 w = Fault AssertFailed w ∧
  free_dma_buf source_config 0 w = Ok tt (with_pool (pool_elems w ++ [0]) w) ∧
  NoDup (pool_elems (with_pool (pool_elems w ++ [0]) w)).
Proof.
  intros w.
  assert (Z.of_nat (length (pool_elems w))
          < rb_capacity (free_pool (buffers w))) as Hroom
    by (vm_compute; reflexivity).
  assert (NoDup (pool_elems w)) as Hnd.
  { apply (bool_decide_unpack (NoDup (pool_elems w))). vm_compute. exact I. }
  assert (0 ∉ pool_elems w) as Hnew.
  { apply (bool_decide_unpack (0 ∉ pool_elems w)). vm_compute. exact I. }
  clearbody w.
  destruct (release_checks source_config 512 w) as (Hbad & _ & _).
  destruct (release_checks source_config 0 w) as (_ & Hgood & Hkeep).
  assert (free_dma_buf source_config 0 w
          = Ok tt (with_pool (pool_elems w ++ [0]) w)) as Hfree.
  { apply Hgood; [cbn; lia|exact Hroom]. }
  split; [apply Hbad; left; cbn; lia|].
  split; [exact Hfree|].
  exact (Hkeep _ Hnd Hnew Hfree).
Defined.

(** C8 as stated fails.  With the constants of the source: with buffers 0
    and 1 out of the pool, handle 0 is released twice, and handle 7, which
    never left the free list, is released as well; every release returns,
    and the free list holds 0 twice and 7 twice. *)
Lemma unowned_release_accepted :
  let w := world_after source_config [OpInit; OpAllocate; OpAllocate; OpAllocate] in
  ∃ w1 w2 w3,
    free_dma_buf source_config 0 w = Ok tt w1 ∧
    free_dma_buf source_config 0 w1 = Ok tt w2 ∧
    free_dma_buf source_config 7 w2 = Ok tt w3 ∧
    pool_elems w3 = seqZ 3 509 ++ [0; 0; 7] ∧
    ¬ NoDup (pool_elems w3).
Proof.
  intros w. do 3 eexists.
  split; [vm_compute; reflexivity|].
  split; [vm_compute; reflexivity|].
  split; [vm_compute; reflexivity|].
  split; [vm_compute; reflexivity|].
  intros Hnd. apply (bool_decide_pack _) in Hnd.
  vm_compute in Hnd. exact Hnd.
Qed.

(** ** The polled bridge *)

Section LiveFacts.

Variable driver : Type.
Variable ethif_send : Z → Z → driver → Live.ethif_err * driver.
Variable ethif_recv : driver → Live.ethif_err * Z * list (Z * Z) * driver.

(** The polled send returns the length unless the driver reports an
    error; it has no pool and makes no length check of its own. *)
Lemma live_send_result (input_buf len : Z) (d : driver) :
  (Live.pico_eth_send driver ethif_send input_buf len d).1 =
    match (ethif_send input_buf len d).1 with
    | Live.ETHIF_NOERROR => len
    | Live.ETHIF_ERROR => 0
    end.
Proof.
  unfold Live.pico_eth_send.
  by destruct (ethif_send input_buf len d) as [[] d'].
Qed.

(** Whatever the driver does, the polled loop returns between 0 and the
    score it was entered with. *)
Lemma live_poll_loop_range (n : nat) (d : driver) :
  0 ≤ (Live.poll_loop driver ethif_recv n d).1.1 ≤ Z.of_nat n.
Proof.
  revert d. induction n as [|n IH]; intros d; [simpl; lia|].
  cbn [Live.poll_loop].
  destruct (ethif_recv d) as [[[[] len] frames] d']; [|simpl; lia].
  destruct (len =? 0); [simpl; lia|].
  specialize (IH d').
  destruct (Live.poll_loop driver ethif_recv n d') as [[r evs] d''].
  simpl in *. lia.
Qed.

(** A budget of zero or less is returned as it is, and the driver is not
    asked. *)
Lemma live_poll_zero (budget : Z) (d : driver) :
  budget ≤ 0 →
  Live.pico_eth_poll driver ethif_recv budget d = (budget, [], d).
Proof.
  intros Hb. unfold Live.pico_eth_poll.
  by assert ((budget >? 0) = false) as -> by lia.
Qed.

End LiveFacts.

(** With the driver holding a queue of frames of non-zero length, the
    polled loop passes the first min(budget, waiting) frames to the stack
    and returns the rest of the budget. *)
Lemma live_poll_loop_eq (n : nat) (d : Live.pending) :
  Forall (λ f, f.2 ≠ 0) d →
  Live.poll_loop Live.pending Live.queue_recv n d =
    (Z.of_nat (n - n `min` length d),
     (λ f, pico_stack_recv f.1 f.2) <$> take n d,
     drop n d).
Proof.
  revert d. induction n as [|n IH]; intros d Hd.
  - by rewrite drop_0.
  - destruct d as [|f d].
    + cbn [Live.poll_loop Live.queue_recv]. simpl. done.
    + apply Forall_cons in Hd as [Hf Hd].
      cbn [Live.poll_loop Live.queue_recv].
      assert ((f.2 =? 0) = false) as -> by lia.
      rewrite IH by done. cbn [length take drop fmap list_fmap app].
      rewrite <- Nat.succ_min_distr. reflexivity.
Qed.

Lemma live_poll_eq (budget : Z) (d : Live.pending) :
  0 ≤ budget → Forall (λ f, f.2 ≠ 0) d →
  Live.pico_eth_poll Live.pending Live.queue_recv budget d =
    (budget - Z.of_nat (Z.to_nat budget `min` length d),
     (λ f, pico_stack_recv f.1 f.2) <$> take (Z.to_nat budget) d,
     drop (Z.to_nat budget) d).
Proof.
  intros Hb Hd. unfold Live.pico_eth_poll.
  destruct (Z.gtb_spec budget 0) as [Hpos|Hzero].
  - rewrite live_poll_loop_eq by done. f_equal. f_equal. lia.
  - assert (budget = 0) as -> by lia. simpl. by rewrite drop_0.
Qed.

(** ** Initialisation, completely *)

Section InitOutcome.

Variable cfg : config.
Variable env : platform.

(** The loop of [init_buffers] over regions that are all fine. *)
Lemma init_buffers_loop_eq (n : nat) (i : Z) (w : world)
    (filled : list dma_addr_t) :
  Forall (region_ok cfg env) (seqZ i (Z.of_nat n)) →
  dma_bufs (buffers w) = filled ++ replicate n {| paddr := 0; vaddr := 0 |} →
  length filled = Z.to_nat i → 0 ≤ i →
  Z.of_nat (length (pool_elems w)) + Z.of_nat n
    ≤ rb_capacity (free_pool (buffers w)) →
  init_buffers_loop cfg env n i w =
    Ok tt {| buffers :=
               {| dma_bufs := filled ++ (sos_dma_malloc env <$> seqZ i (Z.of_nat n));
                  free_pool :=
                    {| rb_capacity := rb_capacity (free_pool (buffers w));
                       rb_elems := pool_elems w ++ seqZ i (Z.of_nat n) |};
                  rx_queue := rx_queue (buffers w);
                  n_tx_bufs := n_tx_bufs (buffers w) |};
             trace := trace w |}.
Proof.
  revert i w filled. induction n as [|n IH]; intros i w filled Hok Hd Hlen Hi Hroom.
  - destruct w as [[d [pc pl] q ntx] t]. simpl in *.
    unfold ret, pool_elems. simpl. rewrite !app_nil_r in *. by subst.
  - rewrite (seqZ_cons i) in Hok |- * by lia.
    replace (Z.pred (Z.of_nat (S n))) with (Z.of_nat n) in * by lia.
    apply Forall_cons in Hok as [[Hva Hcc] Hok].
    destruct w as [[d [pc pl] q ntx] t]. unfold pool_elems in *. simpl in *.
    subst d.
    unfold bind at 1. cbn [modify buffers trace set_dma_buf dma_bufs free_pool
      rx_queue n_tx_bufs].
    unfold bind at 1.
    assert ((vaddr (sos_dma_malloc env i) =? 0) = false) as -> by lia.
    unfold ret at 1. unfold bind at 1. rewrite Hcc.
    unfold ret at 1. unfold bind at 1. cbn [get_buffers buffers].
    unfold bind at 1. cbn [modify buffers trace set_free_pool set_dma_buf dma_bufs
      free_pool rx_queue n_tx_bufs].
    unfold bufferWrite.
    assert (isBufferFull {| rb_capacity := pc; rb_elems := pl |} = false) as ->.
    { apply isBufferFull_false. simpl. lia. }
    cbn [rb_capacity rb_elems].
    rewrite (IH (Z.succ i) _ (filled ++ [sos_dma_malloc env i])).
    + unfold pool_elems. simpl. rewrite <- !app_assoc. reflexivity.
    + done.
    + simpl. rewrite <- Hlen.
      rewrite (insert_app_r_alt filled _ (length filled)) by lia.
      rewrite Nat.sub_diag. simpl. by rewrite <- app_assoc.
    + rewrite length_app. simpl. lia.
    + lia.
    + unfold pool_elems. simpl. rewrite length_app. simpl. lia.
Qed.

(** The loop stops with a fatal error at the first region that is not. *)
Lemma init_buffers_loop_fatal (n : nat) (i : Z) (w : world) :
  ¬ Forall (region_ok cfg env) (seqZ i (Z.of_nat n)) →
  Z.of_nat (length (pool_elems w)) + Z.of_nat n
    ≤ rb_capacity (free_pool (buffers w)) →
  ∃ w', init_buffers_loop cfg env n i w = Fault Fatal w'.
Proof.
  revert i w. induction n as [|n IH]; intros i w Hbad Hroom.
  - destruct Hbad. constructor.
  - rewrite (seqZ_cons i) in Hbad by lia.
    replace (Z.pred (Z.of_nat (S n))) with (Z.of_nat n) in * by lia.
    cbn [init_buffers_loop].
    unfold bind at 1. cbn [modify]. unfold bind at 1.
    destruct (Z.eqb_spec (vaddr (sos_dma_malloc env i)) 0) as [Hz|Hnz].
    { eexists. reflexivity. }
    unfold ret at 1. unfold bind at 1.
    destruct (sos_dma_cache_clean_invalidate env _ _) eqn:Hcc.
    2:{ eexists. reflexivity. }
    unfold ret at 1. unfold bind at 1. cbn [get_buffers buffers].
    unfold bind at 1. cbn [modify buffers trace].
    apply IH.
    + intros Hrest. apply Hbad. apply Forall_cons. by split.
    + destruct w as [[d [pc pl] q ntx] t]. unfold pool_elems in *. simpl in *.
      unfold bufferWrite.
      assert (isBufferFull {| rb_capacity := pc; rb_elems := pl |} = false) as ->.
      { apply isBufferFull_false. simpl. lia. }
      simpl. rewrite length_app. simpl. lia.
Qed.

Lemma init_buffers_eq (w0 : world) :
  0 ≤ N_DMA_BUFS cfg → platform_ok cfg env →
  init_buffers cfg env w0 =
    Ok tt {| buffers := initialised cfg env; trace := trace w0 |}.
Proof.
  intros HN (Hc1 & Hc2 & Hregions).
  unfold init_buffers.
  unfold bind at 1. cbn [modify]. unfold bind at 1. cbn [modify].
  unfold bind at 1. rewrite Hc1. unfold ret at 1.
  unfold bind at 1. cbn [modify]. unfold bind at 1. rewrite Hc2.
  unfold ret at 1.
  rewrite (init_buffers_loop_eq _ _ _ []); simpl.
  - unfold initialised, pool_elems. simpl. by rewrite Z2Nat.id.
  - by rewrite Z2Nat.id.
  - done.
  - done.
  - lia.
  - lia.
Qed.

Lemma init_buffers_fatal (w0 : world) :
  0 ≤ N_DMA_BUFS cfg → ¬ platform_ok cfg env →
  ∃ w, init_buffers cfg env w0 = Fault Fatal w.
Proof.
  intros HN Hbad. unfold init_buffers.
  unfold bind at 1. cbn [modify]. unfold bind at 1. cbn [modify].
  unfold bind at 1.
  destruct (calloc_ok env (N_DMA_BUFS cfg)) eqn:Hc1.
  2:{ eexists. reflexivity. }
  unfold ret at 1.
  unfold bind at 1. cbn [modify]. unfold bind at 1.
  destruct (calloc_ok env (N_RX_BUFS cfg)) eqn:Hc2.
  2:{ eexists. reflexivity. }
  unfold ret at 1.
  apply init_buffers_loop_fatal; simpl.
  - rewrite Z2Nat.id by done. intros Hall. apply Hbad. done.
  - lia.
Qed.

(** X1.  [init_buffers] returns exactly when the platform answers every
    request favourably.  It then leaves the same buffers whatever was there
    before: region [i] in [dma_bufs[i]], every index on the free list in
    order, an empty receive queue and a transmit counter of 0, and it logs
    nothing.  Otherwise it ends in a fatal error. *)
Theorem init_buffers_outcome (w0 : world) :
  0 ≤ N_DMA_BUFS cfg →
  (platform_ok cfg env →
   init_buffers cfg env w0 =
     Ok tt {| buffers := initialised cfg env; trace := trace w0 |}) ∧
  (¬ platform_ok cfg env → ∃ w, init_buffers cfg env w0 = Fault Fatal w).
Proof.
  intros HN. split.
  - intros Hok. by apply init_buffers_eq.
  - intros Hbad. by apply init_buffers_fatal.
Qed.

End InitOutcome.

Lemma init_buffers_outcome_witness :
  init_buffers small_config demo_platform boot =
    Ok tt {| buffers := initialised small_config demo_platform;
             trace := trace boot |}.
Proof.
  apply (init_buffers_outcome small_config demo_platform boot).
  - vm_compute. discriminate.
  - split; [reflexivity|]. split; [reflexivity|].
    repeat (apply Forall_cons; split; [split; [vm_compute; discriminate|reflexivity]|]).
    apply Forall_nil_2.
Defined.

(** ** Allocate and release *)

Section Recycle.

Variable cfg : config.

Lemma recycle_eq (k : nat) (w : world) :
  Forall (λ h, INT_MIN ≤ h ≤ INT_MAX ∧ h < N_DMA_BUFS cfg) (pool_elems w) →
  Z.of_nat (length (pool_elems w)) ≤ rb_capacity (free_pool (buffers w)) →
  (k ≤ length (pool_elems w))%nat →
  recycle cfg k w
    = Ok tt (with_pool (drop k (pool_elems w) ++ take k (pool_elems w)) w).
Proof.
  revert w. induction k as [|k IH]; intros w Hall Hroom Hk.
  - simpl. rewrite drop_0, app_nil_r, with_pool_id. reflexivity.
  - destruct (pool_elems w) as [|h t] eqn:Hpool; [simpl in Hk; lia|].
    pose proof Hall as Hall'.
    apply Forall_cons in Hall' as [[Hint Hlt] Ht].
    cbn [recycle]. unfold bind at 1.
    rewrite alloc_dma_buf_eq, Hpool, int_wrap_id by done.
    unfold bind at 1. rewrite free_dma_buf_eq.
    assert ((h <? N_DMA_BUFS cfg) = true) as -> by lia.
    assert (isBufferFull (free_pool (buffers (with_pool t w))) = false) as ->.
    { apply isBufferFull_false. simpl in *. lia. }
    cbn [andb negb].
    change (pool_elems (with_pool t w)) with t.
    rewrite with_pool_with_pool.
    rewrite IH.
    + change (pool_elems (with_pool (t ++ [h]) w)) with (t ++ [h]).
      rewrite with_pool_with_pool. simpl in Hk.
      rewrite drop_app_le, take_app_le by lia.
      cbn [drop take]. rewrite <- app_assoc. reflexivity.
    + change (pool_elems (with_pool (t ++ [h]) w)) with (t ++ [h]).
      apply Forall_app. split; [done|]. by apply Forall_singleton.
    + change (pool_elems (with_pool (t ++ [h]) w)) with (t ++ [h]).
      rewrite length_app. simpl in *. lia.
    + change (pool_elems (with_pool (t ++ [h]) w)) with (t ++ [h]).
      rewrite length_app. simpl in *. lia.
Qed.

(** X2.  The free list is a queue: a released buffer goes to its tail, so
    buffers are handed out again in the order in which they were freed.
    [k] allocations, each released at once, rotate the free list by [k]
    and change nothing else; as many as there are free buffers restore
    the state. *)
Theorem recycle_rotates (k : nat) (w : world) :
  Forall (λ h, INT_MIN ≤ h ≤ INT_MAX ∧ h < N_DMA_BUFS cfg) (pool_elems w) →
  Z.of_nat (length (pool_elems w)) ≤ rb_capacity (free_pool (buffers w)) →
  (k ≤ length (pool_elems w))%nat →
  recycle cfg k w
    = Ok tt (with_pool (drop k (pool_elems w) ++ take k (pool_elems w)) w) ∧
  recycle cfg (length (pool_elems w)) w = Ok tt w.
Proof.
  intros Hall Hroom Hk. split; [by apply recycle_eq|].
  rewrite recycle_eq by done.
  rewrite drop_all, take_ge by done. simpl. by rewrite with_pool_id.
Qed.

End Recycle.

Lemma recycle_rotates_witness :
  let w := world_after small_config [OpInit; OpAllocate] in
  recycle small_config 2 w = Ok tt (with_pool [3; 1; 2] w) ∧
  recycle small_config 3 w = Ok tt w.
Proof.
  intros w.
  apply (recycle_rotates small_config 2 w).
  - repeat (apply Forall_cons; split; [vm_compute; repeat split; discriminate|]).
    apply Forall_nil_2.
  - vm_compute. discriminate.
  - vm_compute. lia.
Defined.

(** ** The DMA regions *)

Lemma platform_ok_dec (cfg : config) (env : platform) :
  Decision (platform_ok cfg env).
Proof. unfold platform_ok, region_ok. apply _. Defined.

Section Regions.

Variable cfg : config.
Variable env : platform.
Hypothesis Hcfg : config_ok cfg.

Lemma init_buffers_Ok_eq (w0 w : world) :
  init_buffers cfg env w0 = Ok tt w →
  w = {| buffers := initialised cfg env; trace := trace w0 |}.
Proof.
  intros Hinit. destruct Hcfg as ((HN & _) & _).
  destruct (platform_ok_dec cfg env) as [Hok|Hnok].
  - rewrite (init_buffers_eq cfg env w0 HN Hok) in Hinit. by injection Hinit as <-.
  - destruct (init_buffers_fatal cfg env w0 HN Hnok) as [w' Hf]. congruence.
Qed.

(** No operation other than the initialisation writes to [dma_bufs]. *)
Lemma step_keeps_dma_bufs (o : op) (w w' : world) (g g' : owners) :
  reachable cfg env w g → step cfg env o w = Ok tt w' → moves o w w' g g' →
  o ≠ OpInit → dma_bufs (buffers w') = dma_bufs (buffers w).
Proof.
  intros Hreach Hstep Hmoves Hop.
  destruct o as [| |sz|h|p len|c|n cookies lens|budget]; simpl in Hstep, Hmoves.
  - done.
  - unfold bind in Hstep. rewrite alloc_dma_buf_eq in Hstep.
    destruct (pool_elems w); simpl in Hstep; by injection Hstep as <-.
  - unfold bind in Hstep.
    destruct (pico_allocate_rx_buf cfg sz w) as [r w1|] eqn:Halloc; [|done].
    injection Hstep as ->.
    apply pico_allocate_rx_buf_Ok in Halloc as [Hb|(h & t & _ & Hb)];
      by rewrite Hb.
  - by apply free_dma_buf_Ok in Hstep as (_ & _ & ->).
  - unfold bind in Hstep.
    destruct (pico_eth_send cfg p len w) as [r w1|] eqn:Hsend; [|done].
    injection Hstep as ->.
    apply pico_eth_send_Ok in Hsend
      as [(_ & Hb & _)|(h & t & a & _ & _ & _ & _ & _ & _ & ->)];
      [by rewrite Hb|done].
  - by apply pico_tx_complete_Ok in Hstep as (_ & _ & ->).
  - destruct Hmoves as (Hlc & _).
    by apply pico_rx_complete_Ok in Hstep
      as [(_ & _ & _ & ->)|(c & l & _ & _ & _ & ->)].
  - unfold bind in Hstep.
    destruct (pico_eth_poll cfg budget w) as [r w1|] eqn:Hpoll; [|done].
    injection Hstep as ->.
    unfold pico_eth_poll in Hpoll.
    destruct (budget >? 0).
    + rewrite poll_loop_eq in Hpoll.
      * by injection Hpoll as _ <-.
      * apply (inv_poll_ready cfg Hcfg w g).
        by apply (reachable_inv cfg env Hcfg).
    + by injection Hpoll as _ <-.
Qed.

Lemma reachable_dma_bufs (w : world) (g : owners) :
  reachable cfg env w g →
  dma_bufs (buffers w) = sos_dma_malloc env <$> seqZ 0 (N_DMA_BUFS cfg).
Proof.
  induction 1 as [w0 w Hinit|w g o w' g' Hreach IH Hstep Hmoves].
  - by apply init_buffers_Ok_eq in Hinit as ->.
  - destruct o;
      [cbn [step] in Hstep; by apply init_buffers_Ok_eq in Hstep as ->|..];
      (rewrite (step_keeps_dma_bufs _ w w' g g' Hreach Hstep Hmoves) by done;
       exact IH).
Qed.

(** X3.  The DMA regions are obtained once: in every state reached within
    the contract [dma_bufs[i]] is the region [init_buffers] got from the
    platform for index [i]; no later operation changes the array. *)
Theorem dma_bufs_fixed (w : world) (g : owners) :
  reachable cfg env w g →
  dma_bufs (buffers w) = sos_dma_malloc env <$> seqZ 0 (N_DMA_BUFS cfg).
Proof.
  intros Hreach.
  induction Hreach as [w0 w Hinit|w g o w' g' Hreach IH Hstep Hmoves].
  - apply init_buffers_Ok_eq in Hinit. rewrite Hinit. reflexivity.
  - assert (o = OpInit ∨ o ≠ OpInit) as [Hop|Hop].
    { destruct o; [by left|right; discriminate..]. }
    + subst o. cbn [step] in Hstep.
      apply init_buffers_Ok_eq in Hstep. rewrite Hstep. reflexivity.
    + rewrite <- IH. by apply (step_keeps_dma_bufs o w w' g g').
Qed.

(** In a reachable state a handle of the pool finds its region. *)
Lemma reachable_region (w : world) (g : owners) (h : Z) :
  reachable cfg env w g → 0 ≤ h < N_DMA_BUFS cfg →
  dma_bufs (buffers w) !! Z.to_nat h = Some (sos_dma_malloc env h).
Proof.
  intros Hreach Hh. rewrite (reachable_dma_bufs w g Hreach).
  rewrite list_lookup_fmap, lookup_seqZ_lt by lia. simpl.
  f_equal. f_equal. lia.
Qed.

(** In a reachable state the handles on the free list are handles of the
    pool. *)
Lemma reachable_pool_range (w : world) (g : owners) (h : Z) :
  reachable cfg env w g → h ∈ pool_elems w → 0 ≤ h < N_DMA_BUFS cfg.
Proof.
  intros Hreach Hin.
  pose proof (reachable_inv cfg env Hcfg w g Hreach) as [Hown _ _ _ _ _ _].
  assert (h ∈ seqZ 0 (N_DMA_BUFS cfg)) as Hs.
  { rewrite <- Hown, elem_of_app. by left. }
  apply elem_of_seqZ in Hs. lia.
Qed.

End Regions.

Lemma dma_bufs_fixed_witness :
  let w := world_after small_config [OpInit; OpSend 0 100] in
  dma_bufs (buffers w) = sos_dma_malloc demo_platform <$> [0; 1; 2; 3].
Proof.
  intros w.
  apply (dma_bufs_fixed small_config demo_platform) with
    (g := {| tx_owned := [0]; rx_owned := [] |}).
  - vm_compute. repeat split; discriminate.
  - apply (reach_step small_config demo_platform
             (world_after small_config [OpInit]) no_owners (OpSend 0 100)).
    + by apply (reach_boot small_config demo_platform boot).
    + reflexivity.
    + exists [0]. repeat split.
Defined.

(** ** Allocation and sending in reachable states *)

Section Reachable.

Variable cfg : config.
Variable env : platform.
Hypothesis Hcfg : config_ok cfg.

Lemma rx_alloc_oversized (sz : Z) (w : world) :
  BUF_SIZE cfg < sz →
  pico_allocate_rx_buf cfg sz w =
    Ok (0, None)
       (logged [ZF_LOG LOGE "Requested buf size %zu too large, max %zu"] w).
Proof.
  intros Hsz. unfold pico_allocate_rx_buf.
  by assert ((sz >? BUF_SIZE cfg) = true) as -> by lia.
Qed.

Lemma rx_alloc_exhausted (sz : Z) (w : world) :
  sz ≤ BUF_SIZE cfg → pool_elems w = [] →
  pico_allocate_rx_buf cfg sz w =
    Ok (0, None) (logged [ZF_LOG LOGE "Out of preallocated eth buffers."] w).
Proof.
  intros Hsz Hpool. unfold pico_allocate_rx_buf.
  assert ((sz >? BUF_SIZE cfg) = false) as -> by lia.
  unfold bind at 1. by rewrite alloc_dma_buf_eq, Hpool.
Qed.

Lemma rx_alloc_success (sz h : Z) (t : list Z) (w : world) (g : owners) :
  reachable cfg env w g → sz ≤ BUF_SIZE cfg → pool_elems w = h :: t →
  pico_allocate_rx_buf cfg sz w =
    Ok (paddr (sos_dma_malloc env h), Some h)
       (logged [sos_dma_cache_invalidate (vaddr (sos_dma_malloc env h))
                  (BUF_SIZE cfg)]
          (with_pool t w)).
Proof.
  intros Hreach Hsz Hpool.
  assert (0 ≤ h < N_DMA_BUFS cfg) as Hh.
  { apply (reachable_pool_range cfg env Hcfg w g); [done|].
    rewrite Hpool. apply list_elem_of_here. }
  destruct Hcfg as ((_ & HN) & _).
  unfold pico_allocate_rx_buf.
  assert ((sz >? BUF_SIZE cfg) = false) as -> by lia.
  unfold bind at 1. rewrite alloc_dma_buf_eq, Hpool.
  rewrite int_wrap_id by (unfold INT_MIN, INT_MAX in *; lia).
  assert ((h =? -1) = false) as -> by lia.
  unfold bind at 1, dma_buf_at. unfold bind at 1. cbn [get_buffers].
  rewrite (array_read_lookup _ _ (sos_dma_malloc env h)).
  - reflexivity.
  - lia.
  - change (dma_bufs (buffers (with_pool t w))) with (dma_bufs (buffers w)).
    by apply (reachable_region cfg env Hcfg w g).
Qed.

(** X4.  [pico_allocate_rx_buf] in a state reached within the contract
    never fails an assertion or leaves an array.  A request larger than
    BUF_SIZE, or made while the free list is empty, returns 0, stores no
    cookie and changes no buffer (it logs).  Any other request takes the
    head [h] of the free list, invalidates the cache for the whole buffer
    and returns the physical address of region [h] with cookie [h]. *)
Theorem rx_allocation_outcome (sz : Z) (w : world) (g : owners) :
  reachable cfg env w g →
  (BUF_SIZE cfg < sz →
   pico_allocate_rx_buf cfg sz w =
     Ok (0, None)
        (logged [ZF_LOG LOGE "Requested buf size %zu too large, max %zu"] w)) ∧
  (sz ≤ BUF_SIZE cfg → pool_elems w = [] →
   pico_allocate_rx_buf cfg sz w =
     Ok (0, None) (logged [ZF_LOG LOGE "Out of preallocated eth buffers."] w)) ∧
  (∀ h t, sz ≤ BUF_SIZE cfg → pool_elems w = h :: t →
   0 ≤ h < N_DMA_BUFS cfg ∧
   pico_allocate_rx_buf cfg sz w =
     Ok (paddr (sos_dma_malloc env h), Some h)
        (logged [sos_dma_cache_invalidate (vaddr (sos_dma_malloc env h))
                   (BUF_SIZE cfg)]
           (with_pool t w))).
Proof.
  intros Hreach.
  split; [apply rx_alloc_oversized|].
  split; [apply rx_alloc_exhausted|].
  intros h t Hsz Hpool. split.
  - apply (reachable_pool_range cfg env Hcfg w g); [done|].
    rewrite Hpool. apply list_elem_of_here.
  - by apply (rx_alloc_success sz h t w g).
Qed.

(** An accepted send, in full. *)
Lemma send_accept_eq (p len h : Z) (t : list Z) (w : world) (g : owners) :
  reachable cfg env w g → len ≤ BUF_SIZE cfg →
  n_tx_bufs (buffers w) ≠ N_TX_BUFS cfg → pool_elems w = h :: t →
  pico_eth_send cfg p len w =
    Ok len
       (logged [memcpy (vaddr (sos_dma_malloc env h)) p (size_t_of_int len);
                sos_dma_cache_clean (vaddr (sos_dma_malloc env h))
                  (size_t_of_int len)]
          (with_n_tx (n_tx_bufs (buffers w) + 1) (with_pool t w))).
Proof.
  intros Hreach Hlen Hslot Hpool.
  assert (0 ≤ h < N_DMA_BUFS cfg) as Hh.
  { apply (reachable_pool_range cfg env Hcfg w g); [done|].
    rewrite Hpool. apply list_elem_of_here. }
  pose proof (reachable_inv cfg env Hcfg w g Hreach) as [_ _ _ _ _ Htx Hmax].
  pose proof (reachable_region cfg env Hcfg w g h Hreach Hh) as Hreg.
  destruct Hcfg as ((_ & HN) & _ & (_ & HT)).
  unfold pico_eth_send.
  assert ((len >? BUF_SIZE cfg) = false) as -> by lia.
  unfold bind at 1. cbn [get_buffers].
  assert ((n_tx_bufs (buffers w) =? N_TX_BUFS cfg) = false) as -> by lia.
  unfold bind at 1. rewrite alloc_dma_buf_eq, Hpool.
  rewrite int_wrap_id by (unfold INT_MIN, INT_MAX in *; lia).
  unfold bind at 1. cbn [get_buffers].
  unfold bind at 1. cbn [modify].
  unfold bind at 1, dma_buf_at. unfold bind at 1. cbn [get_buffers].
  rewrite (array_read_lookup _ _ (sos_dma_malloc env h)); [|lia|exact Hreg].
  unfold bind at 1. cbn [emit]. unfold bind at 1. cbn [emit].
  cbn [buffers with_pool set_free_pool n_tx_bufs].
  rewrite int_wrap_id by (unfold INT_MIN, INT_MAX in *; lia).
  unfold ret, logged, with_n_tx, with_pool. cbn [buffers trace].
  rewrite <- app_assoc. reflexivity.
Qed.

(** X5.  [pico_eth_send] in a state reached within the contract, for a
    length of at most BUF_SIZE.  With every transmit slot taken it returns 0
    and changes nothing, not even the log.  With a slot and a free buffer
    it returns the length: the head [h] of the free list is taken, the
    counter grows by one, the bytes are copied to the virtual address of
    region [h] and then the cache is cleaned over the same address and
    length.  With a slot but no free buffer it ends outside [dma_bufs]. *)
Theorem send_outcome (p len : Z) (w : world) (g : owners) :
  reachable cfg env w g → len ≤ BUF_SIZE cfg →
  (n_tx_bufs (buffers w) = N_TX_BUFS cfg →
   pico_eth_send cfg p len w = Ok 0 w) ∧
  (∀ h t, n_tx_bufs (buffers w) < N_TX_BUFS cfg → pool_elems w = h :: t →
   pico_eth_send cfg p len w =
     Ok len
        (logged [memcpy (vaddr (sos_dma_malloc env h)) p (size_t_of_int len);
                 sos_dma_cache_clean (vaddr (sos_dma_malloc env h))
                   (size_t_of_int len)]
           (with_n_tx (n_tx_bufs (buffers w) + 1) (with_pool t w)))) ∧
  (n_tx_bufs (buffers w) < N_TX_BUFS cfg → pool_elems w = [] →
   ∃ w', pico_eth_send cfg p len w = Fault OutOfBounds w').
Proof.
  intros Hreach Hlen. split; [|split].
  - intros Hfull. unfold pico_eth_send.
    assert ((len >? BUF_SIZE cfg) = false) as -> by lia.
    unfold bind at 1. cbn [get_buffers].
    by assert ((n_tx_bufs (buffers w) =? N_TX_BUFS cfg) = true) as -> by lia.
  - intros h t Hslot Hpool. apply (send_accept_eq p len h t w g); [done|done|lia|done].
  - intros Hslot Hpool. eexists. apply send_exhausted_eq; [done|lia|done].
Qed.

(** X6.  [pico_eth_send] has no lower bound on the length.  With a slot
    and a free buffer, a length of 0 takes the buffer and the slot and
    returns 0, the value a refused send returns; a negative length is
    accepted as well, is returned as the number of bytes sent, and
    [memcpy] is asked for 2^64 + len bytes. *)
Theorem send_nonpositive_length (p len h : Z) (t : list Z)
    (w : world) (g : owners) :
  reachable cfg env w g → len ≤ BUF_SIZE cfg → INT_MIN ≤ len ≤ 0 →
  n_tx_bufs (buffers w) < N_TX_BUFS cfg → pool_elems w = h :: t →
  ∃ w', pico_eth_send cfg p len w = Ok len w' ∧
        pool_elems w' = t ∧
        n_tx_bufs (buffers w') = n_tx_bufs (buffers w) + 1 ∧
        copies w' = copies w ++
          [memcpy (vaddr (sos_dma_malloc env h)) p
             (if len =? 0 then 0 else 2 ^ 64 + len)].
Proof.
  intros Hreach Hfit Hlen Hslot Hpool.
  eexists. split; [apply (send_accept_eq p len h t w g); [done|done|lia|done]|].
  split; [done|]. split; [done|].
  unfold copies, logged. cbn [trace]. rewrite filter_app. f_equal.
  assert (size_t_of_int len = if len =? 0 then 0 else 2 ^ 64 + len) as ->; [|done].
  unfold size_t_of_int, INT_MIN in *.
  destruct (Z.eqb_spec len 0) as [->|Hne]; [done|].
  rewrite <- (Z_mod_plus_full len 1 (2 ^ 64)).
  rewrite Z.mod_small; lia.
Qed.

(** X7.  A send followed by the completion of the buffer it took: the
    buffer is back on the free list, at its tail, the transmit counter is
    what it was, and the receive queue and [dma_bufs] are untouched; what
    remains is the copy and the cache clean in the trace. *)
Theorem send_then_complete (p len h : Z) (t : list Z)
    (w : world) (g : owners) :
  reachable cfg env w g → len ≤ BUF_SIZE cfg →
  n_tx_bufs (buffers w) < N_TX_BUFS cfg → pool_elems w = h :: t →
  (pico_eth_send cfg p len;; pico_tx_complete cfg h) w =
    Ok tt
       (logged [memcpy (vaddr (sos_dma_malloc env h)) p (size_t_of_int len);
                sos_dma_cache_clean (vaddr (sos_dma_malloc env h))
                  (size_t_of_int len)]
          (with_pool (t ++ [h]) w)).
Proof.
  intros Hreach Hfit Hslot Hpool.
  assert (0 ≤ h < N_DMA_BUFS cfg) as Hh.
  { apply (reachable_pool_range cfg env Hcfg w g); [done|].
    rewrite Hpool. apply list_elem_of_here. }
  pose proof (reachable_inv cfg env Hcfg w g Hreach)
    as [Hown _ Hpc _ _ Htx Hmax].
  apply Permutation_length in Hown.
  rewrite !length_app, length_seqZ, Hpool in Hown. simpl in Hown.
  pose proof Hcfg as ((HN0 & HN) & _ & (_ & HT)).
  unfold bind at 1.
  rewrite (send_accept_eq p len h t w g) by (done || lia).
  rewrite pico_tx_complete_eq; [|lia|].
  - cbn [logged with_n_tx with_pool buffers trace set_n_tx_bufs set_free_pool
         n_tx_bufs pool_elems free_pool rb_elems rb_capacity dma_bufs rx_queue].
    replace (n_tx_bufs (buffers w) + 1 - 1) with (n_tx_bufs (buffers w)) by lia.
    rewrite int_wrap_id by (unfold INT_MIN, INT_MAX in *; lia).
    destruct w as [[d [pc pl] q ntx] tr]. reflexivity.
  - unfold pool_elems. cbn. rewrite Hpc. lia.
Qed.

End Reachable.

(** Two states of the small configuration that are reached within the
    contract. *)
Lemma small_config_ok : config_ok small_config.
Proof. vm_compute. repeat split; discriminate. Qed.

Lemma small_reach_init :
  reachable small_config demo_platform (world_after small_config [OpInit])
    no_owners.
Proof. by apply (reach_boot small_config demo_platform boot). Qed.

Lemma small_reach_send :
  reachable small_config demo_platform
    (world_after small_config [OpInit; OpSend 0 100])
    {| tx_owned := [0]; rx_owned := [] |}.
Proof.
  apply (reach_step small_config demo_platform
           (world_after small_config [OpInit]) no_owners (OpSend 0 100)).
  - exact small_reach_init.
  - reflexivity.
  - exists [0]. repeat split.
Qed.

Lemma rx_allocation_outcome_witness :
  let w := world_after small_config [OpInit; OpSend 0 100] in
  0 ≤ 1 < 4 ∧
  pico_allocate_rx_buf small_config 64 w =
    Ok (paddr (sos_dma_malloc demo_platform 1), Some 1)
       (logged [sos_dma_cache_invalidate (vaddr (sos_dma_malloc demo_platform 1))
                  2048]
          (with_pool [2; 3] w)).
Proof.
  intros w.
  destruct (rx_allocation_outcome small_config demo_platform small_config_ok
              64 w _ small_reach_send) as (_ & _ & Hsome).
  apply (Hsome 1 [2; 3]).
  - vm_compute. discriminate.
  - reflexivity.
Defined.

Lemma send_outcome_witness :
  let w := world_after small_config [OpInit; OpSend 0 100] in
  pico_eth_send small_config 7 100 w =
    Ok 100
       (logged [memcpy (vaddr (sos_dma_malloc demo_platform 1)) 7
                  (size_t_of_int 100);
                sos_dma_cache_clean (vaddr (sos_dma_malloc demo_platform 1))
                  (size_t_of_int 100)]
          (with_n_tx 2 (with_pool [2; 3] w))).
Proof.
  intros w.
  assert (100 ≤ BUF_SIZE small_config) as Hlen by (vm_compute; discriminate).
  destruct (send_outcome small_config demo_platform small_config_ok
              7 100 w _ small_reach_send Hlen) as (_ & Hsome & _).
  apply (Hsome 1 [2; 3]).
  - vm_compute. reflexivity.
  - reflexivity.
Defined.

Lemma send_nonpositive_length_witness :
  let w := world_after small_config [OpInit; OpSend 0 100] in
  ∃ w', pico_eth_send small_config 7 (-1) w = Ok (-1) w' ∧
        pool_elems w' = [2; 3] ∧
        n_tx_bufs (buffers w') = 2 ∧
        copies w' = copies w ++
          [memcpy (vaddr (sos_dma_malloc demo_platform 1)) 7 (2 ^ 64 + -1)].
Proof.
  intros w.
  apply (send_nonpositive_length small_config demo_platform small_config_ok
           7 (-1) 1 [2; 3] w _ small_reach_send).
  - vm_compute. discriminate.
  - vm_compute. split; discriminate.
  - vm_compute. reflexivity.
  - reflexivity.
Defined.

Lemma send_then_complete_witness :
  let w := world_after small_config [OpInit; OpSend 0 100] in
  (pico_eth_send small_config 7 100;; pico_tx_complete small_config 1) w =
    Ok tt
       (logged [memcpy (vaddr (sos_dma_malloc demo_platform 1)) 7
                  (size_t_of_int 100);
                sos_dma_cache_clean (vaddr (sos_dma_malloc demo_platform 1))
                  (size_t_of_int 100)]
          (with_pool [2; 3; 1] w)).
Proof.
  intros w.
  apply (send_then_complete small_config demo_platform small_config_ok
           7 100 1 [2; 3] w _ small_reach_send).
  - vm_compute. discriminate.
  - vm_compute. reflexivity.
  - reflexivity.
Defined.

(** ** The receive path in reachable states *)

Section ReceivePath.

Variable cfg : config.
Variable env : platform.
Hypothesis Hcfg : config_ok cfg.

Lemma reachable_queue_range (w : world) (g : owners) (rx : rx_t) :
  reachable cfg env w g → rx ∈ rx_elems w → 0 ≤ buf_no rx < N_DMA_BUFS cfg.
Proof.
  intros Hreach Hin.
  pose proof (reachable_inv cfg env Hcfg w g Hreach) as [Hown _ _ _ _ _ _].
  assert (buf_no rx ∈ seqZ 0 (N_DMA_BUFS cfg)) as Hs.
  { rewrite <- Hown, !elem_of_app. right; left.
    unfold queued. by apply list_elem_of_fmap_2. }
  apply elem_of_seqZ in Hs. lia.
Qed.

Lemma reachable_dispatch (w : world) (g : owners) (l : list rx_t) :
  reachable cfg env w g →
  Forall (λ rx, 0 ≤ buf_no rx < N_DMA_BUFS cfg) l →
  flat_map (dispatch_events (dma_bufs (buffers w))) l
    = flat_map (frame_events env) l.
Proof.
  intros Hreach Hall. induction Hall as [|rx l Hrx _ IH]; [done|].
  cbn [flat_map]. rewrite IH. f_equal.
  unfold dispatch_events.
  by rewrite (reachable_region cfg env Hcfg w g).
Qed.

Lemma poll_reachable_eq (budget : Z) (w : world) (g : owners) :
  reachable cfg env w g → 0 ≤ budget →
  pico_eth_poll cfg budget w =
    Ok (budget - Z.of_nat (Z.to_nat budget `min` length (rx_elems w)))
       (polled (Z.to_nat budget `min` length (rx_elems w)) w) ∧
  trace (polled (Z.to_nat budget `min` length (rx_elems w)) w) =
    trace w ++ flat_map (frame_events env)
                 (take (Z.to_nat budget `min` length (rx_elems w)) (rx_elems w)).
Proof.
  intros Hreach Hb. split.
  - apply pico_eth_poll_eq; [done|].
    apply (inv_poll_ready cfg Hcfg w g).
    by apply (reachable_inv cfg env Hcfg).
  - unfold polled at 1, logged. cbn [trace]. f_equal.
    apply (reachable_dispatch w g); [done|].
    apply Forall_take, Forall_forall. intros rx Hrx.
    by apply (reachable_queue_range w g).
Qed.

(** X8.  [pico_eth_poll] in a state reached within the contract, with a
    budget of at least 0, hands the first [k] = min(budget, queued) frames to
    the stack in the order in which they were queued, each at the virtual
    address of its buffer and with its recorded length, and each right
    after the cache has been invalidated over it.  Their buffers go to the
    tail of the free list in the same order, and the later frames stay
    queued. *)
Theorem poll_delivers_in_order (budget : Z) (w : world) (g : owners) :
  reachable cfg env w g → 0 ≤ budget →
  let k := (Z.to_nat budget `min` length (rx_elems w))%nat in
  ∃ w', pico_eth_poll cfg budget w = Ok (budget - Z.of_nat k) w' ∧
        trace w' = trace w ++ flat_map (frame_events env) (take k (rx_elems w)) ∧
        pool_elems w' = pool_elems w ++ (buf_no <$> take k (rx_elems w)) ∧
        rx_elems w' = drop k (rx_elems w) ∧
        n_tx_bufs (buffers w') = n_tx_bufs (buffers w).
Proof.
  intros Hreach Hb k.
  destruct (poll_reachable_eq budget w g Hreach Hb) as [Hpoll Htrace].
  exists (polled k w). split; [exact Hpoll|]. split; [exact Htrace|]. done.
Qed.

(** A completion for one buffer with room in the queue enqueues it. *)
Lemma rx_complete_single_eq (c l : Z) (w : world) :
  Z.of_nat (length (rx_elems w)) < rb_capacity (rx_queue (buffers w)) →
  pico_rx_complete cfg 1 [c] [l] w =
    Ok tt (with_queue (rx_elems w ++ [{| buf_no := c; length_ := l |}]) w).
Proof.
  intros Hroom. unfold pico_rx_complete. cbn [Nat.ltb Nat.leb].
  unfold bind at 1. cbn [get_buffers]. unfold bind at 1.
  assert (isBufferFull (rx_queue (buffers w)) = false) as Hnf.
  { by apply isBufferFull_false. }
  rewrite Hnf. cbn [negb assert]. unfold ret at 1.
  unfold bind at 1. rewrite (array_read_lookup _ _ c) by done.
  unfold bind at 1. rewrite (array_read_lookup _ _ l) by done.
  unfold bufferWrite. rewrite Hnf. reflexivity.
Qed.

(** X9.  The receive path end to end, from a state reached within the
    contract with a free buffer and room in the receive queue: the buffer
    [h] handed out by [pico_allocate_rx_buf], completed with length [len]
    and polled with a budget that covers the queue, reaches the stack
    after the frames queued before it, at the virtual address of the
    region whose physical address was given to the device, with length
    [len]; the poll returns 0, the queue is empty and [h] is the last
    entry of the free list. *)
Theorem receive_round_trip (sz len h : Z) (t : list Z)
    (w : world) (g : owners) :
  reachable cfg env w g → sz ≤ BUF_SIZE cfg → pool_elems w = h :: t →
  Z.of_nat (length (rx_elems w)) < N_RX_BUFS cfg →
  ∃ w', (do r <- pico_allocate_rx_buf cfg sz;
         pico_rx_complete cfg 1 [h] [len];;
         do left <- pico_eth_poll cfg (Z.of_nat (S (length (rx_elems w))));
         ret (r, left)) w
        = Ok ((paddr (sos_dma_malloc env h), Some h), 0) w' ∧
        trace w' =
          trace w
          ++ [sos_dma_cache_invalidate (vaddr (sos_dma_malloc env h)) (BUF_SIZE cfg)]
          ++ flat_map (frame_events env) (rx_elems w)
          ++ frame_events env {| buf_no := h; length_ := len |} ∧
        pool_elems w' = t ++ queued w ++ [h] ∧
        rx_elems w' = [] ∧
        n_tx_bufs (buffers w') = n_tx_bufs (buffers w).
Proof.
  intros Hreach Hsz Hpool Hroom.
  pose proof (reachable_inv cfg env Hcfg w g Hreach) as [_ _ _ Hqc _ _ _].
  set (w1 := logged [sos_dma_cache_invalidate (vaddr (sos_dma_malloc env h))
                       (BUF_SIZE cfg)] (with_pool t w)).
  set (rx := {| buf_no := h; length_ := len |}).
  set (w2 := with_queue (rx_elems w ++ [rx]) w1).
  assert (pico_allocate_rx_buf cfg sz w
          = Ok (paddr (sos_dma_malloc env h), Some h) w1) as Halloc.
  { by apply (rx_alloc_success cfg env Hcfg sz h t w g). }
  assert (pico_rx_complete cfg 1 [h] [len] w1 = Ok tt w2) as Hdone.
  { apply rx_complete_single_eq. subst w1. unfold rx_elems in *. simpl.
    rewrite Hqc. exact Hroom. }
  assert (reachable cfg env w1
            {| tx_owned := tx_owned g; rx_owned := h :: rx_owned g |}) as Hreach1.
  { apply (reach_step cfg env w g (OpAllocateRx sz)); [done| |].
    - cbn [step]. unfold bind. by rewrite Halloc.
    - exists [h]. by rewrite Hpool. }
  assert (reachable cfg env w2 g) as Hreach2.
  { apply (reach_step cfg env w1
             {| tx_owned := tx_owned g; rx_owned := h :: rx_owned g |}
             (OpRxComplete 1 [h] [len])); [exact Hreach1|exact Hdone|].
    split; [done|]. split; [done|]. split; [done|]. reflexivity. }
  assert (0 ≤ Z.of_nat (S (length (rx_elems w)))) as Hb by lia.
  destruct (poll_reachable_eq _ w2 g Hreach2 Hb) as [Hpoll Htrace].
  assert (length (rx_elems w2) = S (length (rx_elems w))) as Hlen2.
  { subst w2. unfold rx_elems. simpl. rewrite length_app. simpl. lia. }
  rewrite Nat2Z.id, Hlen2, Nat.min_id in Hpoll, Htrace.
  exists (polled (S (length (rx_elems w))) w2).
  split.
  { unfold bind at 1. rewrite Halloc. unfold bind at 1. rewrite Hdone.
    unfold bind at 1. rewrite Hpoll. unfold ret. f_equal. f_equal. lia. }
  assert (rx_elems w2 = rx_elems w ++ [rx]) as Hq2 by done.
  split.
  { rewrite Htrace, Hq2, take_ge by (rewrite length_app; simpl; lia).
    rewrite flat_map_app. subst w2 w1. cbn [trace with_queue logged].
    simpl. rewrite <- !app_assoc. reflexivity. }
  split.
  { change (pool_elems w2
              ++ (buf_no <$> take (S (length (rx_elems w))) (rx_elems w2))
            = t ++ queued w ++ [h]).
    rewrite Hq2, take_ge by (rewrite length_app; simpl; lia).
    rewrite fmap_app. reflexivity. }
  split; [|done].
  change (drop (S (length (rx_elems w))) (rx_elems w2) = []).
  rewrite Hq2. apply drop_ge. rewrite length_app. simpl. lia.
Qed.

End ReceivePath.

Lemma poll_config_ok : config_ok poll_config.
Proof. vm_compute. repeat split; discriminate. Qed.

(** Two frames received on the polling configuration. *)
Lemma poll_reach_two_frames :
  reachable poll_config demo_platform
    (world_after poll_config (OpInit :: receive_frames 0 2)) no_owners.
Proof.
  apply (reach_step poll_config demo_platform
           (world_after poll_config
              (OpInit :: receive_frames 0 1 ++ [OpAllocateRx 64]))
           {| tx_owned := []; rx_owned := [1] |} (OpRxComplete 1 [1] [64])).
  - apply (reach_step poll_config demo_platform
             (world_after poll_config (OpInit :: receive_frames 0 1))
             no_owners (OpAllocateRx 64)).
    + apply (reach_step poll_config demo_platform
               (world_after poll_config [OpInit; OpAllocateRx 64])
               {| tx_owned := []; rx_owned := [0] |} (OpRxComplete 1 [0] [64])).
      * apply (reach_step poll_config demo_platform
                 (world_after poll_config [OpInit]) no_owners (OpAllocateRx 64)).
        -- apply (reach_boot poll_config demo_platform boot).
           vm_compute. reflexivity.
        -- vm_compute. reflexivity.
        -- exists [0]. split; [vm_compute; reflexivity|]. split; reflexivity.
      * vm_compute. reflexivity.
      * split; [reflexivity|]. split; [reflexivity|]. split; reflexivity.
    + vm_compute. reflexivity.
    + exists [1]. split; [vm_compute; reflexivity|]. split; reflexivity.
  - vm_compute. reflexivity.
  - split; [reflexivity|]. split; [reflexivity|]. split; reflexivity.
Qed.


Lemma poll_delivers_in_order_witness :
  let w := world_after poll_config (OpInit :: receive_frames 0 2) in
  ∃ w', pico_eth_poll poll_config 1 w = Ok 0 w' ∧
        trace w' = trace w
                   ++ frame_events demo_platform {| buf_no := 0; length_ := 64 |} ∧
        pool_elems w' = [2; 3; 4; 5; 6; 7; 0] ∧
        rx_elems w' = [{| buf_no := 1; length_ := 64 |}] ∧
        n_tx_bufs (buffers w') = 0.
Proof.
  intros w.
  assert (0 ≤ 1) as Hb by lia.
  assert (rx_elems w = [{| buf_no := 0; length_ := 64 |};
                        {| buf_no := 1; length_ := 64 |}]) as Hq
    by (vm_compute; reflexivity).
  assert (pool_elems w = [2; 3; 4; 5; 6; 7]) as Hp by (vm_compute; reflexivity).
  assert (n_tx_bufs (buffers w) = 0) as Hn by (vm_compute; reflexivity).
  pose proof poll_reach_two_frames as Hreach. fold w in Hreach.
  clearbody w.
  destruct (poll_delivers_in_order poll_config demo_platform poll_config_ok
              1 w no_owners Hreach Hb)
    as (w' & H1 & H2 & H3 & H4 & H5).
  rewrite Hq in H1, H2, H3, H4. rewrite Hp in H3. rewrite Hn in H5.
  exists w'. split; [exact H1|]. split; [|split; [exact H3|split; [exact H4|exact H5]]].
  rewrite H2. reflexivity.
Defined.

Lemma receive_round_trip_witness :
  let w := world_after small_config [OpInit; OpSend 0 100] in
  ∃ w', (do r <- pico_allocate_rx_buf small_config 64;
         pico_rx_complete small_config 1 [1] [60];;
         do left <- pico_eth_poll small_config 1;
         ret (r, left)) w
        = Ok ((paddr (sos_dma_malloc demo_platform 1), Some 1), 0) w' ∧
        trace w' =
          trace w
          ++ [sos_dma_cache_invalidate (vaddr (sos_dma_malloc demo_platform 1)) 2048]
          ++ []
          ++ frame_events demo_platform {| buf_no := 1; length_ := 60 |} ∧
        pool_elems w' = [2; 3] ++ [] ++ [1] ∧
        rx_elems w' = [] ∧
        n_tx_bufs (buffers w') = 1.
Proof.
  intros w.
  assert (rx_elems w = []) as Hq by (vm_compute; reflexivity).
  assert (pool_elems w = [1; 2; 3]) as Hp by (vm_compute; reflexivity).
  assert (n_tx_bufs (buffers w) = 1) as Hn by (vm_compute; reflexivity).
  pose proof small_reach_send as Hreach. fold w in Hreach.
  clearbody w.
  assert (64 ≤ BUF_SIZE small_config) as Hsz by (vm_compute; discriminate).
  assert (Z.of_nat (length (rx_elems w)) < N_RX_BUFS small_config) as Hroom.
  { rewrite Hq. vm_compute. reflexivity. }
  destruct (receive_round_trip small_config demo_platform small_config_ok
              64 60 1 [2; 3] w _ Hreach Hsz Hp Hroom)
    as (w' & H1 & H2 & H3 & H4 & H5).
  unfold queued in H3. rewrite Hq in H1, H2, H3. rewrite Hn in H5.
  exists w'. split; [exact H1|]. split; [exact H2|].
  split; [exact H3|]. split; [exact H4|exact H5].
Defined.

(** ** What each operation tells the outside *)

Section Footprint.

Context {A B : Type}.
Variable Q : event → Prop.

Lemma emits_ret (a : A) : emits Q (ret a).
Proof. intros w. exists []. by rewrite app_nil_r. Qed.

Lemma emits_raise (f : fault) : emits Q (raise (A := A) f).
Proof. intros w. exists []. by rewrite app_nil_r. Qed.

Lemma emits_bind (m : M A) (k : A → M B) :
  emits Q m → (∀ a, emits Q (k a)) → emits Q (bind m k).
Proof.
  intros Hm Hk w. unfold bind.
  destruct (Hm w) as (es & Ht & Hes).
  destruct (m w) as [a w1|f w1]; simpl in Ht.
  - destruct (Hk a w1) as (es' & Ht' & Hes').
    exists (es ++ es'). rewrite Ht', Ht, app_assoc. split; [done|].
    by apply Forall_app.
  - by exists es.
Qed.

End Footprint.

Lemma emits_get (Q : event → Prop) : emits Q get_buffers.
Proof. intros w. exists []. by rewrite app_nil_r. Qed.

Lemma emits_modify (Q : event → Prop) (f : buffers_t → buffers_t) :
  emits Q (modify f).
Proof. intros w. exists []. simpl. by rewrite app_nil_r. Qed.

Lemma emits_assert (Q : event → Prop) (b : bool) : emits Q (assert b).
Proof. destruct b; [apply emits_ret|apply emits_raise]. Qed.

Lemma emits_emit (Q : event → Prop) (e : event) : Q e → emits Q (emit e).
Proof. intros He w. exists [e]. split; [done|]. by apply Forall_singleton. Qed.

Lemma emits_array_read {A} (Q : event → Prop) (arr : list A) (i : Z) :
  emits Q (array_read arr i).
Proof.
  unfold array_read. destruct (i <? 0); [apply emits_raise|].
  destruct (arr !! Z.to_nat i); [apply emits_ret|apply emits_raise].
Qed.

Lemma emits_weaken {A} (Q Q' : event → Prop) (m : M A) :
  (∀ e, Q e → Q' e) → emits Q m → emits Q' m.
Proof.
  intros Himp Hm w. destruct (Hm w) as (es & Ht & Hes).
  exists es. split; [done|]. by eapply Forall_impl.
Qed.

Create HintDb emits discriminated.
#[local] Hint Resolve emits_ret emits_raise emits_get emits_modify emits_assert
  emits_array_read : emits.

(** Break a computation into its calls. *)
Ltac emits_step :=
  lazymatch goal with
  | |- emits _ (bind _ _) => apply emits_bind; [|intros ?]
  | |- emits _ (if ?b then _ else _) => destruct b
  | |- emits _ (match ?x with _ => _ end) => destruct x
  | |- emits _ (emit _) => apply emits_emit; exact I
  | |- emits _ _ => solve [auto with emits]
  end.

Section FootprintOps.

Variable cfg : config.
Variable env : platform.

Lemma emits_alloc_dma_buf : emits (allowed OpAllocate) alloc_dma_buf.
Proof.
  unfold alloc_dma_buf. apply emits_bind; [auto with emits|intros b].
  destruct (isBufferEmpty (free_pool b)); [repeat emits_step|].
  destruct (bufferRead (free_pool b)) as [[x q]|]; repeat emits_step.
Qed.

Lemma emits_free_dma_buf (h : Z) : emits (λ _, False) (free_dma_buf cfg h).
Proof. unfold free_dma_buf. repeat emits_step. Qed.

Lemma emits_dma_buf_at (Q : event → Prop) (i : Z) : emits Q (dma_buf_at i).
Proof. unfold dma_buf_at. repeat emits_step. Qed.

Lemma emits_init_loop (n : nat) (i : Z) :
  emits (allowed OpInit) (init_buffers_loop cfg env n i).
Proof.
  revert i. induction n as [|n IH]; intros i; [apply emits_ret|].
  cbn [init_buffers_loop]. repeat emits_step.
Qed.

Lemma emits_release_cookies (n : nat) (i : Z) (cookies : list Z) :
  emits (λ _, False) (release_cookies cfg n i cookies).
Proof.
  revert i. induction n as [|n IH]; intros i; [apply emits_ret|].
  cbn [release_cookies].
  apply emits_bind; [auto with emits|intros c].
  apply emits_bind; [apply emits_free_dma_buf|intros _]. apply IH.
Qed.

Lemma emits_poll_loop (n : nat) :
  emits (allowed (OpPoll 0)) (poll_loop cfg n).
Proof.
  induction n as [|n IH]; [apply emits_ret|].
  cbn [poll_loop]. apply emits_bind; [auto with emits|intros b].
  destruct (isBufferEmpty (rx_queue b)); [apply emits_ret|].
  destruct (bufferRead (rx_queue b)) as [[rx q]|]; [|apply emits_raise].
  apply emits_bind; [auto with emits|intros _].
  apply emits_bind; [apply emits_dma_buf_at|intros buf].
  apply emits_bind; [apply emits_emit; exact I|intros _].
  apply emits_bind; [apply emits_emit; exact I|intros _].
  apply emits_bind; [|intros _; apply IH].
  eapply emits_weaken; [|apply emits_free_dma_buf]. done.
Qed.

Lemma emits_step_op (o : op) : emits (allowed o) (step cfg env o).
Proof.
  destruct o as [| |sz|h|p len|c|n cookies lens|budget]; cbn [step].
  - unfold init_buffers. repeat emits_step. apply emits_init_loop.
  - apply emits_bind; [apply emits_alloc_dma_buf|intros _; apply emits_ret].
  - apply emits_bind; [|intros _; apply emits_ret].
    unfold pico_allocate_rx_buf.
    destruct (sz >? BUF_SIZE cfg); [repeat emits_step|].
    apply emits_bind.
    { eapply emits_weaken; [|apply emits_alloc_dma_buf]. by intros [[]| | | |]. }
    intros b. destruct (b =? -1); [apply emits_ret|].
    apply emits_bind; [apply emits_dma_buf_at|intros a]. repeat emits_step.
  - eapply emits_weaken; [|apply emits_free_dma_buf]. done.
  - apply emits_bind; [|intros _; apply emits_ret].
    unfold pico_eth_send.
    destruct (len >? BUF_SIZE cfg); [repeat emits_step|].
    apply emits_bind; [auto with emits|intros b].
    destruct (n_tx_bufs b =? N_TX_BUFS cfg); [apply emits_ret|].
    apply emits_bind.
    { eapply emits_weaken; [|apply emits_alloc_dma_buf]. by intros [[]| | | |]. }
    intros h. apply emits_bind; [auto with emits|intros b'].
    apply emits_bind; [auto with emits|intros _].
    apply emits_bind; [apply emits_dma_buf_at|intros a]. repeat emits_step.
  - unfold pico_tx_complete.
    apply emits_bind; [apply emits_free_dma_buf|intros _]. repeat emits_step.
  - unfold pico_rx_complete. destruct (1 <? n)%nat.
    + apply emits_bind; [apply emits_emit; exact I|intros _].
      eapply emits_weaken; [|apply emits_release_cookies]. done.
    + repeat emits_step.
  - apply emits_bind; [|intros _; apply emits_ret].
    unfold pico_eth_poll. destruct (budget >? 0); [|apply emits_ret].
    eapply emits_weaken; [|apply emits_poll_loop]. done.
Qed.

(** X10.  What each operation tells the outside, whether it returns or
    fails: it appends to the trace and never anything but its own kind of
    call.  Releases and transmit completions are silent; allocation and
    receive completion only log; [pico_allocate_rx_buf] logs or
    invalidates the cache; [pico_eth_send] logs, copies and cleans the
    cache; [pico_eth_poll] invalidates the cache and calls the stack and
    never logs.  So only [pico_eth_poll] hands frames to the stack, and
    only [pico_eth_send] copies into a DMA buffer. *)
Theorem operation_footprint (o : op) (w : world) :
  (∃ es, trace (final (step cfg env o w)) = trace w ++ es ∧
         Forall (allowed o) es) ∧
  ((∀ n, o ≠ OpPoll n) →
   deliveries (final (step cfg env o w)) = deliveries w) ∧
  ((∀ p len, o ≠ OpSend p len) →
   copies (final (step cfg env o w)) = copies w).
Proof.
  destruct (emits_step_op o w) as (es & Ht & Hes).
  split; [by exists es|]. split.
  - intros Hnot. unfold deliveries. rewrite Ht, filter_app.
    rewrite (filter_none _ es); [by rewrite app_nil_r|].
    eapply Forall_impl; [exact Hes|].
    intros e He.
    destruct o as [| |sz|h|p len|c|n cookies lens|budget];
      destruct e as [[]| | | |]; try done; cbn; try tauto.
    by destruct (Hnot budget).
  - intros Hnot. unfold copies. rewrite Ht, filter_app.
    rewrite (filter_none _ es); [by rewrite app_nil_r|].
    eapply Forall_impl; [exact Hes|].
    intros e He.
    destruct o as [| |sz|h|p len|c|n cookies lens|budget];
      destruct e as [[]| | | |]; try done; cbn; try tauto.
    by destruct (Hnot p len).
Qed.

End FootprintOps.

Lemma operation_footprint_witness :
  let w := world_after small_config [OpInit; OpSend 0 100] in
  deliveries (final (step small_config demo_platform (OpSend 0 100) w))
    = deliveries w ∧
  copies (final (step small_config demo_platform (OpPoll 3) w)) = copies w.
Proof.
  intros w. split.
  - apply (operation_footprint small_config demo_platform (OpSend 0 100) w).
    discriminate.
  - apply (operation_footprint small_config demo_platform (OpPoll 3) w).
    discriminate.
Defined.

(** ** Bounds kept in reachable states *)

Section Bounds.

Variable cfg : config.
Variable env : platform.
Hypothesis Hcfg : config_ok cfg.

(** X11.  In every state reached within the contract both rings keep the
    capacity [init_buffers] gave them and never hold more: at most
    N_RX_BUFS frames are queued, at most N_DMA_BUFS handles are free, and
    the free handles, the queued frames and the sends in flight together
    never exceed N_DMA_BUFS.  A queued buffer is a buffer of the pool and
    is not on the free list. *)
Theorem rings_bounded (w : world) (g : owners) :
  reachable cfg env w g →
  rb_capacity (rx_queue (buffers w)) = N_RX_BUFS cfg ∧
  rb_capacity (free_pool (buffers w)) = N_DMA_BUFS cfg ∧
  Z.of_nat (length (rx_elems w)) ≤ N_RX_BUFS cfg ∧
  free_count w + Z.of_nat (length (rx_elems w)) + n_tx_bufs (buffers w)
    ≤ N_DMA_BUFS cfg ∧
  Forall (λ rx, 0 ≤ buf_no rx < N_DMA_BUFS cfg ∧ buf_no rx ∉ pool_elems w)
         (rx_elems w).
Proof.
  intros Hreach.
  pose proof (reachable_inv cfg env Hcfg w g Hreach)
    as [Hown Hdma Hpc Hqc Hql Htx Hmax].
  destruct Hcfg as ((HN & _) & _).
  split; [done|]. split; [done|]. split; [done|]. split.
  - apply Permutation_length in Hown.
    rewrite !length_app, length_seqZ in Hown.
    unfold queued in Hown. rewrite length_fmap in Hown.
    unfold free_count. lia.
  - apply Forall_forall. intros rx Hrx. split.
    + by apply (reachable_queue_range cfg env Hcfg w g).
    + assert (NoDup (pool_elems w ++ queued w ++ tx_owned g ++ rx_owned g)) as Hnd.
      { rewrite Hown. apply NoDup_seqZ. }
      apply NoDup_app in Hnd as (_ & Hdisj & _).
      intros Hin. apply (Hdisj _ Hin).
      rewrite elem_of_app. left. unfold queued. by apply list_elem_of_fmap_2.
Qed.

(** X12.  Sends cannot run into an empty pool while the receive side
    holds at most N_DMA_BUFS - N_TX_BUFS buffers (queued or handed out):
    in such a state reached within the contract a send of at most BUF_SIZE
    bytes returns, with the length when a transmit slot is left and with 0
    when none is. *)
Theorem send_safe_when_rx_bounded (p len : Z) (w : world) (g : owners) :
  reachable cfg env w g → len ≤ BUF_SIZE cfg →
  Z.of_nat (length (rx_elems w) + length (rx_owned g))
    ≤ N_DMA_BUFS cfg - N_TX_BUFS cfg →
  ∃ w', pico_eth_send cfg p len w
        = Ok (if n_tx_bufs (buffers w) =? N_TX_BUFS cfg then 0 else len) w'.
Proof.
  intros Hreach Hlen Hrx.
  pose proof (reachable_inv cfg env Hcfg w g Hreach)
    as [Hown Hdma Hpc Hqc Hql Htx Hmax].
  pose proof Hcfg as ((HN & _) & _).
  apply Permutation_length in Hown.
  rewrite !length_app, length_seqZ in Hown.
  unfold queued in Hown. rewrite length_fmap in Hown.
  destruct (Z.eqb_spec (n_tx_bufs (buffers w)) (N_TX_BUFS cfg)) as [Hfull|Hslot].
  - exists w. unfold pico_eth_send.
    assert ((len >? BUF_SIZE cfg) = false) as -> by lia.
    unfold bind at 1. cbn [get_buffers].
    by assert ((n_tx_bufs (buffers w) =? N_TX_BUFS cfg) = true) as -> by lia.
  - destruct (pool_elems w) as [|h t] eqn:Hpool; [simpl in Hown; lia|].
    eexists. by apply (send_accept_eq cfg env Hcfg p len h t w g).
Qed.

(** X13.  The capacity assertion of [pico_rx_complete] cannot fail while
    the receive side holds at most N_RX_BUFS buffers (queued or handed
    out): in such a state reached within the contract the completion of a
    buffer [c] that was handed out returns, with the frame at the tail of
    the queue and nothing else changed. *)
Theorem rx_complete_safe_when_rx_bounded (c l : Z) (w : world) (g : owners) :
  reachable cfg env w g → c ∈ rx_owned g →
  Z.of_nat (length (rx_elems w) + length (rx_owned g)) ≤ N_RX_BUFS cfg →
  pico_rx_complete cfg 1 [c] [l] w =
    Ok tt (with_queue (rx_elems w ++ [{| buf_no := c; length_ := l |}]) w).
Proof.
  intros Hreach Hc Hrx.
  pose proof (reachable_inv cfg env Hcfg w g Hreach) as [_ _ _ Hqc _ _ _].
  apply rx_complete_single_eq. rewrite Hqc.
  destruct (rx_owned g); [by apply elem_of_nil in Hc|]. simpl in Hrx. lia.
Qed.

End Bounds.

Lemma rings_bounded_witness :
  let w := world_after poll_config (OpInit :: receive_frames 0 2) in
  rb_capacity (rx_queue (buffers w)) = 8 ∧
  rb_capacity (free_pool (buffers w)) = 8 ∧
  Z.of_nat (length (rx_elems w)) ≤ 8 ∧
  free_count w + Z.of_nat (length (rx_elems w)) + n_tx_bufs (buffers w) ≤ 8 ∧
  Forall (λ rx, 0 ≤ buf_no rx < 8 ∧ buf_no rx ∉ pool_elems w) (rx_elems w).
Proof.
  intros w.
  apply (rings_bounded poll_config demo_platform poll_config_ok w no_owners).
  exact poll_reach_two_frames.
Defined.

Lemma send_safe_when_rx_bounded_witness :
  let w := world_after small_config [OpInit; OpSend 0 100] in
  ∃ w', pico_eth_send small_config 7 100 w = Ok 100 w'.
Proof.
  intros w.
  assert (n_tx_bufs (buffers w) = 1) as Hn by (vm_compute; reflexivity).
  assert (rx_elems w = []) as Hq by (vm_compute; reflexivity).
  pose proof small_reach_send as Hreach. fold w in Hreach.
  clearbody w.
  assert (100 ≤ BUF_SIZE small_config) as Hlen by (vm_compute; discriminate).
  assert (Z.of_nat (length (rx_elems w)
                    + length (rx_owned {| tx_owned := [0]; rx_owned := [] |}))
          ≤ N_DMA_BUFS small_config - N_TX_BUFS small_config) as Hrx.
  { rewrite Hq. vm_compute. discriminate. }
  destruct (send_safe_when_rx_bounded small_config demo_platform small_config_ok
              7 100 w _ Hreach Hlen Hrx) as [w' Hsend].
  rewrite Hn in Hsend. by exists w'.
Defined.

Lemma small_reach_alloc :
  reachable small_config demo_platform
    (world_after small_config [OpInit; OpAllocateRx 64])
    {| tx_owned := []; rx_owned := [0] |}.
Proof.
  apply (reach_step small_config demo_platform
           (world_after small_config [OpInit]) no_owners (OpAllocateRx 64)).
  - exact small_reach_init.
  - vm_compute. reflexivity.
  - exists [0]. split; [vm_compute; reflexivity|]. split; reflexivity.
Qed.

Lemma rx_complete_safe_when_rx_bounded_witness :
  let w := world_after small_config [OpInit; OpAllocateRx 64] in
  pico_rx_complete small_config 1 [0] [60] w =
    Ok tt (with_queue (rx_elems w ++ [{| buf_no := 0; length_ := 60 |}]) w).
Proof.
  intros w.
  apply (rx_complete_safe_when_rx_bounded small_config demo_platform
           small_config_ok 0 60 w {| tx_owned := []; rx_owned := [0] |}).
  - exact small_reach_alloc.
  - apply list_elem_of_here.
  - vm_compute. discriminate.
Defined.

(** ** A split frame with a cookie outside the pool *)

Section BadCookie.

Variable cfg : config.

Lemma release_cookies_bad (good : list Z) (bad : Z) (rest cookies : list Z)
    (n : nat) (i : Z) (w : world) :
  0 ≤ i → drop (Z.to_nat i) cookies = good ++ bad :: rest →
  (length good < n)%nat →
  Forall (λ c, c < N_DMA_BUFS cfg) good → N_DMA_BUFS cfg ≤ bad →
  Z.of_nat (length (pool_elems w)) + Z.of_nat (length good)
    ≤ rb_capacity (free_pool (buffers w)) →
  release_cookies cfg n i cookies w
    = Fault AssertFailed (with_pool (pool_elems w ++ good) w).
Proof.
  revert n i w. induction good as [|c good IH]; intros n i w Hi Hdrop Hn Hall Hbad Hroom.
  - destruct n as [|n]; [simpl in Hn; lia|].
    assert (cookies !! Z.to_nat i = Some bad) as Hget.
    { rewrite <- (Nat.add_0_r (Z.to_nat i)), <- lookup_drop, Hdrop. done. }
    cbn [release_cookies]. unfold bind at 1.
    rewrite (array_read_lookup _ _ bad) by done.
    unfold bind at 1. rewrite free_dma_buf_eq.
    assert ((bad <? N_DMA_BUFS cfg) = false) as -> by lia.
    simpl. by rewrite app_nil_r, with_pool_id.
  - destruct n as [|n]; [simpl in Hn; lia|].
    apply Forall_cons in Hall as [Hc Hall].
    assert (cookies !! Z.to_nat i = Some c) as Hget.
    { rewrite <- (Nat.add_0_r (Z.to_nat i)), <- lookup_drop, Hdrop. done. }
    cbn [release_cookies]. unfold bind at 1.
    rewrite (array_read_lookup _ _ c) by done.
    unfold bind at 1. rewrite free_dma_buf_eq.
    assert ((c <? N_DMA_BUFS cfg) = true) as -> by lia.
    assert (isBufferFull (free_pool (buffers w)) = false) as ->.
    { apply isBufferFull_false. unfold pool_elems in *. simpl in Hroom. lia. }
    cbn [andb negb].
    rewrite (IH n (i + 1)).
    + change (pool_elems (with_pool (pool_elems w ++ [c]) w))
        with (pool_elems w ++ [c]).
      rewrite with_pool_with_pool, <- app_assoc. reflexivity.
    + lia.
    + replace (Z.to_nat (i + 1)) with (S (Z.to_nat i)) by lia.
      rewrite (drop_S _ _ _ Hget) in Hdrop. by injection Hdrop.
    + simpl in Hn. lia.
    + done.
    + done.
    + change (pool_elems (with_pool (pool_elems w ++ [c]) w))
        with (pool_elems w ++ [c]).
      unfold pool_elems in *. simpl in *. rewrite length_app. simpl. lia.
Qed.

(** X14.  A split frame one of whose cookies is N_DMA_BUFS or more: the
    cookies before it have already been released when the assertion of
    [free_dma_buf] fails on it; the call does not return and the cookies
    after it are not released. *)
Theorem split_frame_bad_cookie (n : nat) (good : list Z) (bad : Z)
    (rest lens : list Z) (w : world) :
  (1 < n)%nat → length (good ++ bad :: rest) = n →
  Forall (λ c, c < N_DMA_BUFS cfg) good → N_DMA_BUFS cfg ≤ bad →
  Z.of_nat (length (pool_elems w)) + Z.of_nat (length good)
    ≤ rb_capacity (free_pool (buffers w)) →
  pico_rx_complete cfg n (good ++ bad :: rest) lens w =
    Fault AssertFailed
      (with_pool (pool_elems w ++ good)
         (logged [ZF_LOG LOGW "Frame splitting not handled"] w)).
Proof.
  intros Hn Hlen Hall Hbad Hroom. unfold pico_rx_complete.
  assert ((1 <? n)%nat = true) as -> by (apply Nat.ltb_lt; lia).
  unfold bind at 1. cbn [emit].
  rewrite (release_cookies_bad good bad rest); try done.
  rewrite length_app in Hlen. simpl in Hlen. lia.
Qed.

End BadCookie.

Lemma split_frame_bad_cookie_witness :
  let w := world_after source_config
             [OpInit; OpAllocateRx 2048; OpAllocateRx 2048] in
  pico_rx_complete source_config 3 ([0] ++ 600 :: [1]) [2048; 2048; 100] w =
    Fault AssertFailed
      (with_pool (pool_elems w ++ [0])
         (logged [ZF_LOG LOGW "Frame splitting not handled"] w)).
Proof.
  intros w.
  assert (Z.of_nat (length (pool_elems w)) + Z.of_nat (length [0])
          ≤ rb_capacity (free_pool (buffers w))) as Hroom
    by (vm_compute; discriminate).
  clearbody w.
  apply (split_frame_bad_cookie source_config 3 [0] 600 [1]); try done.
  - lia.
  - by apply Forall_singleton.
Defined.


(** ** The polled loop against any driver *)

Section LivePoll.

Variable driver : Type.
Variable ethif_recv : driver → Live.ethif_err * Z * list (Z * Z) * driver.

Lemma live_poll_loop_counts (n : nat) (d : driver) :
  let k := leading_packets (answers driver ethif_recv n d) in
  (Live.poll_loop driver ethif_recv n d).1.1 = Z.of_nat (n - k) ∧
  (Live.poll_loop driver ethif_recv n d).2
    = after_calls driver ethif_recv (S k `min` n) d ∧
  (k ≤ n)%nat.
Proof.
  revert d. induction n as [|n IH]; intros d; [done|].
  cbn [Live.poll_loop answers after_calls].
  destruct (ethif_recv d) as [[[retval len] frames] d'] eqn:Hrecv.
  destruct retval.
  - destruct (Z.eqb_spec len 0) as [->|Hlen].
    + cbn [leading_packets packet Z.eqb negb].
      simpl. rewrite Hrecv. split; [done|]. split; [done|lia].
    + cbn [leading_packets packet].
      assert ((len =? 0) = false) as -> by lia.
      cbn [negb]. specialize (IH d'). cbn zeta in IH.
      destruct (Live.poll_loop driver ethif_recv n d') as [[r evs] d''].
      destruct IH as (Hr & Hd & Hk). simpl in Hr, Hd |- *.
      split; [rewrite Hr; f_equal; lia|].
      split; [|lia].
      rewrite Hd.
      replace (S (S (leading_packets (answers driver ethif_recv n d'))) `min` S n)%nat
        with (S (S (leading_packets (answers driver ethif_recv n d')) `min` n)) by lia.
      cbn [after_calls]. by rewrite Hrecv.
  - cbn [leading_packets packet]. simpl. rewrite Hrecv.
    split; [done|]. split; [done|lia].
Qed.

(** X15.  The polled [pico_eth_poll], with whatever driver: for a budget
    of at least 0 it returns the budget less the number of packets
    received, where the packets received are the answers of [ethif_recv]
    before the first that reports an error or a length of 0, among at most
    [budget] answers; the driver is asked once more than that, and never
    more than [budget] times.  A budget of 0 or less is returned as it is
    and the driver is not asked. *)
Theorem live_poll_counts (budget : Z) (d : driver) :
  (0 ≤ budget →
   let k := leading_packets (answers driver ethif_recv (Z.to_nat budget) d) in
   (Live.pico_eth_poll driver ethif_recv budget d).1.1 = budget - Z.of_nat k ∧
   (Live.pico_eth_poll driver ethif_recv budget d).2
     = after_calls driver ethif_recv (S k `min` Z.to_nat budget) d ∧
   0 ≤ Z.of_nat k ≤ budget) ∧
  (budget ≤ 0 →
   Live.pico_eth_poll driver ethif_recv budget d = (budget, [], d)).
Proof.
  split.
  - intros Hb k. unfold Live.pico_eth_poll.
    destruct (Z.gtb_spec budget 0) as [Hpos|Hzero].
    + destruct (live_poll_loop_counts (Z.to_nat budget) d) as (Hr & Hd & Hk).
      fold k in Hr, Hd, Hk. rewrite Hr, Hd. split; [lia|]. split; [done|lia].
    + assert (budget = 0) as -> by lia. done.
  - intros Hb. unfold Live.pico_eth_poll.
    by assert ((budget >? 0) = false) as -> by lia.
Qed.

End LivePoll.

Lemma live_poll_counts_witness :
  let d := [(10, 60); (11, 0); (12, 64)] in
  (Live.pico_eth_poll Live.pending Live.queue_recv 3 d).1.1 = 3 - 1 ∧
  (Live.pico_eth_poll Live.pending Live.queue_recv 3 d).2 = [(12, 64)] ∧
  0 ≤ 1 ≤ 3.
Proof.
  intros d.
  assert (0 ≤ 3) as Hb by lia.
  exact (proj1 (live_poll_counts Live.pending Live.queue_recv 3 d) Hb).
Defined.

(** ** Exclusive hand-out, and sending after a completion *)

Section Exclusive.

Variable cfg : config.
Variable env : platform.
Hypothesis Hcfg : config_ok cfg.

(** X16.  In a state reached within the contract [alloc_dma_buf] answers
    -1 exactly when the free list is empty, so the failure value cannot be
    mistaken for a handle; any other answer is a handle of the pool, the
    head of the free list, and it is no longer on the free list after the
    call: no handle is handed out twice without a release in between. *)
Theorem allocation_exclusive (w : world) (g : owners) :
  reachable cfg env w g →
  ∃ r w', alloc_dma_buf w = Ok r w' ∧
          (r = -1 ↔ pool_elems w = []) ∧
          (r ≠ -1 →
           0 ≤ r < N_DMA_BUFS cfg ∧ pool_elems w = r :: pool_elems w' ∧
           (r ∉ pool_elems w') ∧ trace w' = trace w).
Proof.
  intros Hreach.
  pose proof (reachable_inv cfg env Hcfg w g Hreach) as [Hown _ _ _ _ _ _].
  rewrite alloc_dma_buf_eq.
  destruct (pool_elems w) as [|h t] eqn:Hpool.
  - eexists _, _. split; [reflexivity|]. split; [done|]. done.
  - assert (0 ≤ h < N_DMA_BUFS cfg) as Hh.
    { apply (reachable_pool_range cfg env Hcfg w g); [done|].
      rewrite Hpool. apply list_elem_of_here. }
    destruct Hcfg as ((_ & HN) & _).
    rewrite int_wrap_id by (unfold INT_MIN, INT_MAX in *; lia).
    eexists _, _. split; [reflexivity|]. split; [split; [lia|done]|].
    intros _. split; [done|]. split; [done|]. split; [|done].
    assert (NoDup ((h :: t) ++ queued w ++ tx_owned g ++ rx_owned g)) as Hnd.
    { rewrite Hown. apply NoDup_seqZ. }
    apply NoDup_app in Hnd as (Hnd & _).
    by apply NoDup_cons in Hnd as [Hnot _].
Qed.

(** X17.  A send that follows the completion of a buffer in flight is
    always accepted: the completion frees a transmit slot and puts a
    buffer on the free list, so the send of at most BUF_SIZE bytes returns
    the length, and the counter and the number of free buffers are what
    they were before the completion. *)
Theorem complete_then_send (c p len : Z) (w : world) (g : owners) :
  reachable cfg env w g → c ∈ tx_owned g → len ≤ BUF_SIZE cfg →
  ∃ w', (pico_tx_complete cfg c;; pico_eth_send cfg p len) w = Ok len w' ∧
        n_tx_bufs (buffers w') = n_tx_bufs (buffers w) ∧
        free_count w' = free_count w ∧
        rx_elems w' = rx_elems w.
Proof.
  intros Hreach Hc Hlen.
  pose proof (reachable_inv cfg env Hcfg w g Hreach)
    as [Hown _ Hpc _ _ Htx Hmax].
  pose proof Hcfg as ((HN0 & HN) & _ & (_ & HT)).
  assert (c ∈ seqZ 0 (N_DMA_BUFS cfg)) as Hin.
  { rewrite <- Hown, !elem_of_app. auto. }
  apply elem_of_seqZ in Hin.
  apply elem_of_Permutation in Hc as [tx' Htx'].
  pose proof (Permutation_length Htx') as Hlen'. simpl in Hlen'.
  apply Permutation_length in Hown.
  rewrite !length_app, length_seqZ in Hown.
  set (w1 := with_n_tx (int_wrap (n_tx_bufs (buffers w) - 1))
               (with_pool (pool_elems w ++ [c]) w)).
  assert (pico_tx_complete cfg c w = Ok tt w1) as Hdone.
  { apply pico_tx_complete_eq; [lia|]. rewrite Hpc. lia. }
  assert (reachable cfg env w1 {| tx_owned := tx'; rx_owned := rx_owned g |})
    as Hreach1.
  { apply (reach_step cfg env w g (OpTxComplete c)); [done|exact Hdone|].
    split; [exact Htx'|reflexivity]. }
  assert (n_tx_bufs (buffers w1) = n_tx_bufs (buffers w) - 1) as Hn1.
  { subst w1. simpl. apply int_wrap_id. unfold INT_MIN, INT_MAX in *. lia. }
  assert (∃ h t, pool_elems w ++ [c] = h :: t) as (h & t & Hpool1).
  { destruct (pool_elems w) as [|h t]; simpl; eauto. }
  assert (pool_elems w1 = h :: t) as Hp1 by exact Hpool1.
  eexists. split.
  { unfold bind at 1. rewrite Hdone.
    apply (send_accept_eq cfg env Hcfg p len h t w1 _ Hreach1); [done|lia|done]. }
  split.
  { change (n_tx_bufs (buffers w1) + 1 = n_tx_bufs (buffers w)). lia. }
  split; [|done].
  unfold free_count. change (Z.of_nat (length t) = Z.of_nat (length (pool_elems w))).
  assert (length (pool_elems w ++ [c]) = length (h :: t)) as Hl by by rewrite Hpool1.
  rewrite length_app in Hl. simpl in Hl. lia.
Qed.

End Exclusive.

Lemma allocation_exclusive_witness :
  let w := world_after small_config [OpInit; OpSend 0 100] in
  ∃ r w', alloc_dma_buf w = Ok r w' ∧
          (r = -1 ↔ pool_elems w = []) ∧
          (r ≠ -1 →
           0 ≤ r < 4 ∧ pool_elems w = r :: pool_elems w' ∧
           (r ∉ pool_elems w') ∧ trace w' = trace w).
Proof.
  intros w.
  apply (allocation_exclusive small_config demo_platform small_config_ok w
           {| tx_owned := [0]; rx_owned := [] |}).
  exact small_reach_send.
Defined.

Lemma complete_then_send_witness :
  let w := world_after small_config [OpInit; OpSend 0 100] in
  ∃ w', (pico_tx_complete small_config 0;; pico_eth_send small_config 7 100) w
        = Ok 100 w' ∧
        n_tx_bufs (buffers w') = n_tx_bufs (buffers w) ∧
        free_count w' = free_count w ∧
        rx_elems w' = rx_elems w.
Proof.
  intros w.
  apply (complete_then_send small_config demo_platform small_config_ok
           0 7 100 w {| tx_owned := [0]; rx_owned := [] |}).
  - exact small_reach_send.
  - apply list_elem_of_here.
  - vm_compute. discriminate.
Defined.

(** ** Both bridges *)

(** C4 as the code has it.  A send whose length exceeds BUF_SIZE: the
    [pico_eth_send] of the buffer-pool bridge returns 0 at once, without
    allocating a buffer, so the free count is unchanged and nothing is
    copied.  The [pico_eth_send] that is compiled has no pool and no length
    check of its own: it passes the frame to the driver once, and returns 0
    when [ethif_send] reports an error and the length when it does not. *)
Theorem send_oversized (cfg : config) (input_buf len : Z) (w : world) :
  BUF_SIZE cfg < len →
  (∃ w', pico_eth_send cfg input_buf len w = Ok 0 w' ∧
         buffers w' = buffers w ∧
         free_count w' = free_count w ∧
         copies w' = copies w ∧
         trace w' = trace w ++ [ZF_LOG LOGE "Buffer size %d too big, max %d"]) ∧
  (∀ (driver : Type) (ethif_send : Z → Z → driver → Live.ethif_err * driver)
     (d : driver),
     ((ethif_send input_buf len d).1 = Live.ETHIF_ERROR →
      (Live.pico_eth_send driver ethif_send input_buf len d).1 = 0) ∧
     ((ethif_send input_buf len d).1 = Live.ETHIF_NOERROR →
      (Live.pico_eth_send driver ethif_send input_buf len d).1 = len) ∧
     (Live.pico_eth_send driver ethif_send input_buf len d).2
       = (ethif_send input_buf len d).2).
Proof.
  intros Hlen. split.
  - destruct (pool_send_oversized cfg input_buf len w Hlen)
      as (w' & Hsend & Hbuf & Hfree & Hcopies & Htrace).
    exists w'. unfold free_count. rewrite Hfree. done.
  - intros driver ethif_send d. unfold Live.pico_eth_send.
    destruct (ethif_send input_buf len d) as [[] d']; simpl; done.
Qed.

Lemma send_oversized_witness :
  let w := world_after source_config [OpInit; OpAllocate] in
  (∃ w', pico_eth_send source_config 0 2049 w = Ok 0 w' ∧
         buffers w' = buffers w ∧
         free_count w' = 511 ∧
         copies w' = copies w ∧
         trace w' = trace w ++ [ZF_LOG LOGE "Buffer size %d too big, max %d"]) ∧
  (Live.pico_eth_send unit refusing_send 0 2049 tt).1 = 0 ∧
  (Live.pico_eth_send unit accepting_send 0 2049 tt).1 = 2049.
Proof.
  intros w.
  assert (free_count w = 511) as Hfree by (vm_compute; reflexivity).
  clearbody w.
  assert (BUF_SIZE source_config < 2049) as Hlen by (vm_compute; reflexivity).
  destruct (send_oversized source_config 0 2049 w Hlen) as [Hpool Hlive].
  split.
  - destruct Hpool as (w' & H1 & H2 & H3 & H4 & H5).
    exists w'. rewrite Hfree in H3. done.
  - split.
    + apply (Hlive unit refusing_send tt). reflexivity.
    + apply (Hlive unit accepting_send tt). reflexivity.
Defined.

(** C4 as stated fails.  The compiled [pico_eth_send], with a driver that
    accepts the frame, returns the length of a send of 2049 bytes, more
    than BUF_SIZE, and not 0. *)
Lemma live_send_accepts_oversized :
  BUF_SIZE source_config < 2049 ∧
  Live.pico_eth_send unit accepting_send 0 2049 tt = (2049, tt) ∧
  (Live.pico_eth_send unit accepting_send 0 2049 tt).1 ≠ 0.
Proof. split; [reflexivity|]. split; [reflexivity|discriminate]. Qed.

Lemma take_min_length {A} (n : nat) (l : list A) :
  take (n `min` length l) l = take n l.
Proof.
  destruct (Nat.le_gt_cases n (length l)) as [Hle|Hgt].
  - by rewrite Nat.min_l.
  - rewrite Nat.min_r by lia. by rewrite !take_ge by lia.
Qed.

Lemma drop_min_length {A} (n : nat) (l : list A) :
  drop (n `min` length l) l = drop n l.
Proof.
  destruct (Nat.le_gt_cases n (length l)) as [Hle|Hgt].
  - by rewrite Nat.min_l.
  - rewrite Nat.min_r by lia. by rewrite !drop_ge by lia.
Qed.

(** C6.  Both polls return the budget less the frames processed, and
    process at most [budget] frames.

    The [pico_eth_poll] of the buffer-pool bridge, in a state where every
    queued frame names a buffer of the pool and the free list has room for
    them (every state reached within the contract is such a state), with a
    budget of at least 0 dispatches [k] = min(budget, queued frames) frames
    to the stack and returns [budget - k]; with a budget of 0 or an empty
    queue it returns the budget and changes nothing; with five frames
    queued, a poll with budget 3 delivers three frames and returns 0, and
    the following poll with budget 5 delivers the other two and returns 3.

    The [pico_eth_poll] that is compiled, with whatever driver, returns
    the budget less the number of packets [ethif_recv] reported before its
    first answer without one, which is at most the budget.  With a driver
    that holds a queue of frames and passes one to the callback per call,
    it dispatches min(budget, waiting) frames, returns the rest of the
    budget, and returns the budget unchanged when it is 0 or no frame is
    waiting; with five frames waiting the same scenario holds. *)
Theorem poll_returns_unused_budget (cfg : config) (budget : Z) (w : world) :
  0 ≤ budget → poll_ready cfg w →
  (let k := (Z.to_nat budget `min` length (rx_elems w))%nat in
   pico_eth_poll cfg budget w = Ok (budget - Z.of_nat k) (polled k w) ∧
   length (deliveries (polled k w)) = (length (deliveries w) + k)%nat ∧
   Z.of_nat k ≤ budget ∧
   (budget = 0 ∨ rx_elems w = [] → pico_eth_poll cfg budget w = Ok budget w) ∧
   (length (rx_elems w) = 5%nat →
    pico_eth_poll cfg 3 w = Ok 0 (polled 3 w) ∧
    length (deliveries (polled 3 w)) = (length (deliveries w) + 3)%nat ∧
    pico_eth_poll cfg 5 (polled 3 w) = Ok 3 (polled 2 (polled 3 w)) ∧
    length (deliveries (polled 2 (polled 3 w)))
      = (length (deliveries (polled 3 w)) + 2)%nat ∧
    rx_elems (polled 2 (polled 3 w)) = [])) ∧
  (∀ (driver : Type)
     (ethif_recv : driver → Live.ethif_err * Z * list (Z * Z) * driver)
     (d : driver),
     let j := leading_packets (answers driver ethif_recv (Z.to_nat budget) d) in
     (Live.pico_eth_poll driver ethif_recv budget d).1.1 = budget - Z.of_nat j ∧
     0 ≤ Z.of_nat j ≤ budget) ∧
  (∀ d : Live.pending,
     Forall (λ f, f.2 ≠ 0) d →
     let j := (Z.to_nat budget `min` length d)%nat in
     Live.pico_eth_poll Live.pending Live.queue_recv budget d
       = (budget - Z.of_nat j,
          (λ f, pico_stack_recv f.1 f.2) <$> take j d,
          drop j d) ∧
     Z.of_nat j ≤ budget ∧
     (budget = 0 ∨ d = [] →
      Live.pico_eth_poll Live.pending Live.queue_recv budget d = (budget, [], d)) ∧
     (length d = 5%nat →
      Live.pico_eth_poll Live.pending Live.queue_recv 3 d
        = (0, (λ f, pico_stack_recv f.1 f.2) <$> take 3 d, drop 3 d) ∧
      Live.pico_eth_poll Live.pending Live.queue_recv 5 (drop 3 d)
        = (3, (λ f, pico_stack_recv f.1 f.2) <$> drop 3 d, []))).
Proof.
  intros Hb Hready. split; [by apply pool_poll_budget|]. split.
  - intros driver ethif_recv d j. unfold Live.pico_eth_poll.
    destruct (Z.gtb_spec budget 0) as [Hpos|Hzero].
    + destruct (live_poll_loop_counts driver ethif_recv (Z.to_nat budget) d)
        as (Hr & _ & Hk).
      fold j in Hr, Hk. rewrite Hr. lia.
    + assert (budget = 0) as Hz by lia. subst budget j. done.
  - intros d Hd j.
    assert (Live.pico_eth_poll Live.pending Live.queue_recv budget d
            = (budget - Z.of_nat j,
               (λ f, pico_stack_recv f.1 f.2) <$> take j d, drop j d)) as Heq.
    { rewrite live_poll_eq by done. subst j.
      by rewrite take_min_length, drop_min_length. }
    split; [exact Heq|]. split; [lia|]. split.
    + intros Hnone. rewrite Heq.
      assert (j = 0%nat) as ->.
      { subst j. destruct Hnone as [-> | ->]; simpl; lia. }
      rewrite drop_0. f_equal. f_equal. lia.
    + intros Hfive. split.
      * rewrite live_poll_eq by (done || lia). rewrite Hfive. reflexivity.
      * assert (length (drop 3 d) = 2%nat) as Htwo.
        { rewrite length_drop. lia. }
        rewrite live_poll_eq by (lia || by apply Forall_drop).
        change (Z.to_nat 5) with 5%nat.
        rewrite Htwo.
        rewrite (take_ge (drop 3 d) 5) by lia.
        rewrite (drop_ge (drop 3 d) 5) by lia.
        reflexivity.
Qed.

Lemma poll_returns_unused_budget_witness :
  let w := world_after poll_config (OpInit :: receive_frames 0 5) in
  (pico_eth_poll poll_config 3 w = Ok 0 (polled 3 w) ∧
   length (deliveries (polled 3 w)) = 3%nat ∧
   pico_eth_poll poll_config 5 (polled 3 w) = Ok 3 (polled 2 (polled 3 w)) ∧
   length (deliveries (polled 2 (polled 3 w))) = 5%nat) ∧
  (Live.pico_eth_poll Live.pending Live.queue_recv 3 five_pending
     = (0,
        [pico_stack_recv 4096 60; pico_stack_recv 6144 64;
         pico_stack_recv 8192 1500],
        [(10240, 42); (12288, 128)]) ∧
   Live.pico_eth_poll Live.pending Live.queue_recv 5 [(10240, 42); (12288, 128)]
     = (3, [pico_stack_recv 10240 42; pico_stack_recv 12288 128], [])).
Proof.
  intros w.
  assert (0 ≤ 3) as Hb by lia.
  assert (poll_ready poll_config w) as Hready.
  { split; [|vm_compute; discriminate].
    repeat (apply Forall_cons; split; [vm_compute; repeat split; (discriminate || lia)|]).
    apply Forall_nil_2. }
  assert (Forall (λ f : Z * Z, f.2 ≠ 0) five_pending) as Hframes.
  { repeat (apply Forall_cons; split; [simpl; discriminate|]). apply Forall_nil_2. }
  destruct (poll_returns_unused_budget poll_config 3 w Hb Hready)
    as (Hpool & _ & Hlive).
  split.
  - destruct Hpool as (_ & _ & _ & _ & Hscen).
    destruct (Hscen eq_refl) as (H1 & H2 & H3 & H4 & _).
    split; [exact H1|]. split; [exact H2|]. split; [exact H3|].
    rewrite H4, H2. reflexivity.
  - destruct (Hlive five_pending Hframes) as (_ & _ & _ & Hscen).
    exact (Hscen eq_refl).
Defined.
